(** * cafs: content-addressed storage with a tiered (LRU) cache store

    A shallow embedding of the stores of the [cafs] package:

    - [MemoryStore]  (src/lib/backends/MemoryStore.js),
    - [LRU]          (the tracker object that [CacheStore] builds with
                      [LRU({max, length, noDisposeOnSet, dispose})]),
    - [CacheStore]   (the tiered store: a cache tier in front of a fallback
                      tier, with the capability proxies of its constructor),
    - [Cafs]         (the put / read facade, described by the specification).

    JavaScript objects used as dictionaries ([this.data], [this.moves]) are
    finite maps from strings that hold their own properties.  A plain
    object also answers for the names it inherits ([constructor],
    [toString], ..., see [inherited]): [this.moves] is read and written as
    the code does it, inherited names included; [this.data] of a
    [MemoryStore] is modelled for the keys that are [ordinary], and the
    statements that depend on what it holds under a key carry that
    condition.
    Truthiness tests of the source ([if (!buf)], [if (size)],
    [if (this.moves[key])]) are written out. *)

From Stdlib Require Import ZArith List Lia.
From stdpp Require Import base gmap strings list.

Local Open Scope string_scope.
Local Open Scope Z_scope.
Local Open Scope list_scope.

(** ** JavaScript values, promises and streams *)

(** A [Buffer] is a sequence of bytes. *)
Abbreviation Buffer := (list Byte.byte).

(** The values that the stores hand back to their callers. *)
#[warnings="-register-all"]
Inductive jsvalue : Type :=
| VUndefined
| VNull
| VBool (b : bool)
| VNum (n : Z)
| VStr (s : string)
| VArr (l : list jsvalue).

(** [!!v] *)
Definition truthy (v : jsvalue) : bool :=
  match v with
  | VUndefined | VNull => false
  | VBool b => b
  | VNum n => negb (n =? 0)%Z
  | VStr s => negb (String.eqb s "")
  | VArr _ => true
  end.

(** The names that an object inherits from [Object.prototype].  Read on a
    plain object that has no property of its own under the name, each of
    them gives a function (or, for [__proto__], the prototype): a truthy
    value.  An assignment under [__proto__] does not make a property: it
    replaces the prototype when the value is an object and does nothing
    when it is a string or a boolean. *)
Definition inherited : list string :=
  ["constructor"; "__defineGetter__"; "__defineSetter__"; "hasOwnProperty";
   "__lookupGetter__"; "__lookupSetter__"; "isPrototypeOf";
   "propertyIsEnumerable"; "toString"; "valueOf"; "__proto__";
   "toLocaleString"].

(** A key that is none of these names. *)
Definition ordinary (key : string) : Prop := key ∉ inherited.

#[global] Instance ordinary_dec (key : string) : Decision (ordinary key).
Proof. unfold ordinary. apply _. Defined.

(** The eventual outcome of a promise.  [Pending] is a promise that is
    never settled (a consumer waiting for the end of a stream that never
    ends). *)
Inductive promise (A : Type) : Type :=
| Fulfilled (a : A)
| Rejected (e : string)
| Pending.
Arguments Fulfilled {A} a.
Arguments Rejected {A} e.
Arguments Pending {A}.

(** What a call does on the spot: return a plain value, throw, or return a
    promise. *)
Inductive completion : Type :=
| Return (v : jsvalue)
| Throw (e : string)
| Async (p : promise jsvalue).

(** [Promise.try(() => c)]: a plain value is wrapped, a throw becomes a
    rejection. *)
Definition settle (c : completion) : promise jsvalue :=
  match c with
  | Return v => Fulfilled v
  | Throw e => Rejected e
  | Async p => p
  end.

(** [Promise.join(p, q)]: fulfilled with both values once both are fulfilled,
    rejected as soon as one is rejected.  When both are rejected the error
    is that of the one rejected first; there is no clock here and [join]
    takes the error of [p], so what is stated below about the error of a
    joint rejection is stated for the case that only one of the two is
    rejected, or for either error. *)
Definition join {A B : Type} (p : promise A) (q : promise B) : promise (A * B) :=
  match p, q with
  | Fulfilled a, Fulfilled b => Fulfilled (a, b)
  | Rejected e, _ => Rejected e
  | _, Rejected e => Rejected e
  | _, _ => Pending
  end.

(** How a readable stream finishes: it emits ['end'], it emits ['error'], or
    it emits neither. *)
Inductive fate : Type :=
| Ended
| Errored (e : string)
| Stalled.

(** A readable stream: the chunks of its ['data'] events and its fate. *)
Record Readable : Type := { chunks : list Buffer; finish : fate }.

Definition readable_of (b : Buffer) : Readable :=
  {| chunks := [b]; finish := Ended |}.

(** The chunk size of a [ReadableStreamBuffer] made without options. *)
Definition chunkSize : nat := 1024.

Fixpoint chunked_ (fuel : nat) (b : Buffer) : list Buffer :=
  match fuel, b with
  | S fuel', _ :: _ => take chunkSize b :: chunked_ fuel' (drop chunkSize b)
  | _, _ => []
  end.

(** What a [ReadableStreamBuffer] pushes after [put(b)] and [stop()]: the
    bytes of [b] in chunks of at most [chunkSize] bytes, none when [b] is
    empty. *)
Definition chunked (b : Buffer) : list Buffer := chunked_ (List.length b) b.

(** A number, or [undefined] / [NaN] ([None]): arithmetic on [None] gives
    [None] and every comparison with it is false. *)
Abbreviation number := (option Z).

Definition plus (a b : number) : number :=
  match a, b with
  | Some x, Some y => Some (x + y)%Z
  | _, _ => None
  end.

Definition minus (a b : number) : number :=
  match a, b with
  | Some x, Some y => Some (x - y)%Z
  | _, _ => None
  end.

(** [if (size)] *)
Definition nonzero (size : number) : bool :=
  match size with
  | Some n => negb (n =? 0)%Z
  | None => false
  end.

(** ** MemoryStore *)

Module MemoryStore.

(** What [this.data[key]] can hold: a [Buffer], or the [false] that
    [WritableStreamBuffer#getContents()] returns when nothing was
    written. *)
Inductive contents : Type :=
| Buf (b : Buffer)
| NoContents.

(** [this.data], an object whose prototype is [Object.prototype], by its
    own properties.  For a key that is [ordinary] a read, an assignment and
    a [delete] are the lookup, the insertion and the deletion of the map,
    and the prototype stays what it is. *)
Record t : Type := { data : gmap string contents }.

Definition MemoryStore : t := {| data := ∅ |}.

(** [!buf], for [buf = this.data[key]] (undefined when the key is not
    there). *)
Definition falsy (buf : option contents) : bool :=
  match buf with
  | Some (Buf _) => false
  | Some NoContents | None => true
  end.

Definition getContents (written : list Buffer) : contents :=
  let bytes := concat written in
  if (length bytes =? 0)%nat then NoContents else Buf bytes.

Definition missing (key : string) : string :=
  ("Key '" ++ key ++ "' does not exist!")%string.

Definition ensure (key : string) (sourceStream : Readable) (this : t)
  : t * completion :=
  match finish sourceStream with
  | Ended =>
      let buf := getContents (chunks sourceStream) in
      ({| data := <[key := buf]> (data this) |}, Async (Fulfilled VUndefined))
  | Errored e => (this, Async (Rejected e))
  | Stalled => (this, Async Pending)
  end.

(** The third component is what is piped into [dest], chunk by chunk. *)
Definition stream (key : string) (this : t) : t * completion * list Buffer :=
  match data this !! key with
  | Some (Buf b) => (this, Async (Fulfilled VUndefined), chunked b)
  | _ => (this, Async (Rejected (missing key)), [])
  end.

Definition move (source dest : string) (this : t) : t * completion :=
  let buf := data this !! source in
  if falsy buf then (this, Async (Rejected (missing source)))
  else
    match buf with
    | Some c =>
        ({| data := <[dest := c]> (delete source (data this)) |},
         Async (Fulfilled VUndefined))
    | None => (this, Async (Rejected (missing source)))
    end.

Definition exists_ (key : string) (this : t) : bool :=
  negb (falsy (data this !! key)).

Definition unlink (key : string) (this : t) : t * completion :=
  ({| data := delete key (data this) |}, Return VUndefined).

(** The rename capability as the store contract words it, for every pair
    of keys. *)
Definition rename_contract : Prop :=
  ∀ (this : t) (source dest : string),
    (exists_ source this = false →
     ∃ e, snd (move source dest this) = Async (Rejected e)) ∧
    (∀ b, data this !! source = Some (Buf b) →
       ∃ this', move source dest this = (this', Async (Fulfilled VUndefined)) ∧
                exists_ source this' = false ∧
                data this' !! dest = Some (Buf b)).

End MemoryStore.

(** ** The LRU tracker *)

(** Modelled from the spec: the LRU tracker of the eviction policy (4.3),
    the object that [CacheStore] makes with
    [LRU({ max, length: size => size, noDisposeOnSet: true, dispose })];
    its code (package lru-cache, series 4) is not under src/.  The tracker
    has a bound, a running total and a recency list (head: most recently
    used; tail: least recently used); the [Map] from keys to list nodes is
    the lookup [node_of]; entries never age ([maxAge] is 0).  Registering or
    re-registering an entry that pushes the total over the bound evicts from
    the tail, one entry at a time, and every eviction calls [dispose].  Where
    the spec is silent the model does what the package does: a bound of 0 or
    less is no bound, an entry larger than the bound is disposed of at once
    and never tracked, and a size that is not a number is added to the total
    as it is. *)

Module LRU.

(** [this[MAX]]: a positive number, or [Infinity]. *)
Inductive limit : Type :=
| Finite (n : Z)
| Infinity.

(** [a > m] *)
Definition exceeds (a : number) (m : limit) : bool :=
  match a, m with
  | Some x, Finite y => (y <? x)%Z
  | _, _ => false
  end.

(** An entry of the list: [hit.key], [hit.value], [hit.length]. *)
Record Entry : Type := { key : string; value : number; length : number }.

Record t : Type := { MAX : limit; LENGTH : number; LRU_LIST : list Entry }.

(** Modelled from the spec: the tracker that [LRU({ max, ... })] makes
    (lru-cache is not under src/); a bound that is 0 or negative means no
    bound. *)
Definition LRU (max : Z) : t :=
  {| MAX := if (max <=? 0)%Z then Infinity else Finite max;
     LENGTH := Some 0%Z;
     LRU_LIST := [] |}.

(** [length: size => size] *)
Definition lengthCalculator (size : number) : number := size.

(** [this[CACHE].get(key)] *)
Definition node_of (k : string) (l : list Entry) : option Entry :=
  List.find (fun hit => String.eqb (key hit) k) l.

(** [this[LRU_LIST].removeNode(node)], for the node of key [k]. *)
Fixpoint removeNode (k : string) (l : list Entry) : list Entry :=
  match l with
  | [] => []
  | hit :: rest => if String.eqb (key hit) k then rest else hit :: removeNode k rest
  end.

(** [this[LRU_LIST].unshiftNode(node)]: the node moves to the head. *)
Definition unshiftNode (hit : Entry) (l : list Entry) : list Entry :=
  hit :: removeNode (key hit) l.

(** The node of key [k] gets a new value and length, in place. *)
Fixpoint updateNode (k : string) (v len : number) (l : list Entry) : list Entry :=
  match l with
  | [] => []
  | hit :: rest =>
      if String.eqb (key hit) k
      then {| key := key hit; value := v; length := len |} :: rest
      else hit :: updateNode k v len rest
  end.

(** Modelled from the spec: [get(self, key, doUse)] of lru-cache (not under
    src/), the access that makes an entry the most recently used one; the
    second component is the returned value. *)
Definition get_ (k : string) (doUse : bool) (self : t) : t * number :=
  match node_of k (LRU_LIST self) with
  | Some hit =>
      (if doUse
       then {| MAX := MAX self; LENGTH := LENGTH self;
               LRU_LIST := unshiftNode hit (LRU_LIST self) |}
       else self,
       value hit)
  | None => (self, None)
  end.

Definition get (k : string) (self : t) : t * number := get_ k true self.

Definition has (k : string) (self : t) : bool :=
  match node_of k (LRU_LIST self) with
  | Some _ => true
  | None => false
  end.

Definition peek (k : string) (self : t) : number := snd (get_ k false self).

Section Dispose.

(** The [dispose] option acts on the state [W] of whoever owns the tracker. *)
Context {W : Type} (dispose : string → number → W → W).

(** Modelled from the spec: [del(self, node)] of lru-cache (not under
    src/); the entry is disposed of and taken out. *)
Definition del_ (node : option Entry) (c : t * W) : t * W :=
  match node with
  | Some hit =>
      let w := dispose (key hit) (value hit) (snd c) in
      ({| MAX := MAX (fst c);
          LENGTH := minus (LENGTH (fst c)) (length hit);
          LRU_LIST := removeNode (key hit) (LRU_LIST (fst c)) |}, w)
  | None => c
  end.

Definition del (k : string) (c : t * W) : t * W :=
  del_ (node_of k (LRU_LIST (fst c))) c.

(** Modelled from the spec: the loop of [trim] of lru-cache (not under
    src/): while the total is over the bound the least recently used entry
    is evicted; [walker] runs from the tail towards the head. *)
Fixpoint trim_walk (walker : list Entry) (c : t * W) : t * W :=
  match walker with
  | [] => c
  | hit :: prev =>
      if exceeds (LENGTH (fst c)) (MAX (fst c))
      then trim_walk prev (del_ (Some hit) c)
      else c
  end.

Definition trim (c : t * W) : t * W :=
  if exceeds (LENGTH (fst c)) (MAX (fst c))
  then trim_walk (rev (LRU_LIST (fst c))) c
  else c.

(** Modelled from the spec: [set(key, value)] of lru-cache (not under
    src/), which registers an entry and evicts if the budget is exceeded;
    the boolean is the returned value. *)
Definition set (k : string) (v : number) (c : t * W) : t * W * bool :=
  let self := fst c in
  let len := lengthCalculator v in
  match node_of k (LRU_LIST self) with
  | Some item =>
      if exceeds len (MAX self) then (del_ (Some item) c, false)
      else
        (* noDisposeOnSet: the old value is not disposed of *)
        let self1 :=
          {| MAX := MAX self;
             LENGTH := plus (LENGTH self) (minus len (length item));
             LRU_LIST := updateNode k v len (LRU_LIST self) |} in
        (trim (fst (get k self1), snd c), true)
  | None =>
      let hit := {| key := k; value := v; length := len |} in
      if exceeds (length hit) (MAX self)
      then ((self, dispose k v (snd c)), false)
      else
        (trim ({| MAX := MAX self;
                  LENGTH := plus (LENGTH self) (length hit);
                  LRU_LIST := hit :: LRU_LIST self |}, snd c), true)
  end.

End Dispose.

(** The sizes that are tracked, added up (an entry whose size is not a
    number adds nothing). *)
Definition total (l : list Entry) : Z :=
  fold_right (fun hit acc => (default 0 (length hit) + acc)%Z) 0%Z l.

Definition tracked (self : t) : Z := total (LRU_LIST self).

(** An entry as [set] leaves it: its length is its value, it fits the bound
    by itself, and it is not negative. *)
Definition entry_ok (m : limit) (hit : Entry) : Prop :=
  length hit = value hit ∧ exceeds (length hit) m = false ∧
  ∀ n, length hit = Some n → (0 ≤ n)%Z.

(** The fields of a tracker agree with each other: one entry per key, and
    a running total that is the sum of the entries unless it is [NaN]. *)
Definition consistent (self : t) : Prop :=
  NoDup (map key (LRU_LIST self)) ∧
  Forall (entry_ok (MAX self)) (LRU_LIST self) ∧
  (LENGTH self = None ∨
   (LENGTH self = Some (tracked self) ∧
    Forall (fun hit => is_Some (length hit)) (LRU_LIST self))).

(** What holds of a tracker between two calls. *)
Definition invariant (self : t) : Prop :=
  consistent self ∧ exceeds (LENGTH self) (MAX self) = false.

(** A tracker in order whose bound is [L] and whose total is a number. *)
Definition bounded (L : Z) (self : t) : Prop :=
  invariant self ∧ MAX self = Finite L ∧ is_Some (LENGTH self).

End LRU.

(** ** CacheStore *)

Module CacheStore.

(** The store interface ([ensure], [stream], [move], [exists], [unlink]) on
    a store state [S].  Each method gives the new state and the eventual
    outcome of what it returns (a plain value counts as fulfilled); the five
    methods are taken not to throw on the spot, as those of [MemoryStore]
    and [DirectoryStore] do not.  [stream] also gives what it pipes into its
    destination (the [options] of a read only go to [pipe]).  [extra] are
    the other function-valued properties of the store object that
    [_.forIn] visits, by name. *)
Class Store (S : Type) : Type := {
  store_ensure : string → Readable → S → S * promise jsvalue;
  store_stream : string → S → S * (promise jsvalue * list Buffer);
  store_move : string → string → S → S * promise jsvalue;
  store_exists : string → S → S * promise jsvalue;
  store_unlink : string → S → S * promise jsvalue;
  extra : string → option (list jsvalue → S → S * completion)
}.

Inductive tier : Type := Cache | Fallback.

(** The calls that reach the two stores. *)
Inductive call : Type :=
| Ensure (key : string) (sourceStream : Readable)
| Stream (key : string)
| Move (source dest : string)
| Exists (key : string)
| Unlink (key : string)
| Extra (name : string) (args : list jsvalue).

(** What a [CacheStore] does, in order: the calls it makes to its stores,
    the assignment [this.moves[source] = dest] of a rename and the
    [delete this.moves[key]] of an eviction. *)
Inductive event : Type :=
| Issued (on : tier) (what : call)
| Recorded (source dest : string)
| Forgotten (key : string).

(** [thenSync(obj, fn)]: [fn] runs after a promise is fulfilled, at once
    for anything else. *)
Definition thenSync {T : Type} (obj : completion) (fn : T → T * completion)
  (this : T) : T * completion :=
  match obj with
  | Async (Fulfilled _) => let r := fn this in (fst r, Async (settle (snd r)))
  | Async (Rejected e) => (this, Async (Rejected e))
  | Async Pending => (this, Async Pending)
  | _ => fn this
  end.

Definition KiB : Z := 1024.
Definition MiB : Z := 1024 * KiB.

(** The names under which a [CacheStore] has something before the proxies
    are made: the fields set by the constructor, the methods of the
    prototype, and what every object inherits. *)
Definition members : list string :=
  ["log"; "cacheStore"; "cacheLimit"; "fallbackStore"; "moves"; "lru";
   "ensure"; "stream"; "move"; "exists"; "unlink"; "getCacheStatString"]
  ++ inherited.

Section Tiers.

Context {C F : Type} {SC : Store C} {SF : Store F}.

(** Everything of [this] but the tracker: what [dispose] works on.
    [trace] records the events so far. *)
Record Env : Type := {
  moves : gmap string string;
  cacheStore : C;
  fallbackStore : F;
  trace : list event
}.

Record t : Type := { cacheLimit : Z; lru : LRU.t; env : Env }.

(** [new CacheStore({ cacheStore, fallbackStore, cacheLimit })]; a limit
    that is not given is 100 MiB. *)
Definition CacheStore (cacheStore : C) (fallbackStore : F) (cacheLimit : option Z) : t :=
  let limit := default (100 * MiB) cacheLimit in
  {| cacheLimit := limit;
     lru := LRU.LRU limit;
     env := {| moves := ∅; cacheStore := cacheStore;
               fallbackStore := fallbackStore; trace := [] |} |}.

(** [this.moves[key]] as a condition: the key is there and what it maps to
    is not the empty string, or the key is not there and is a name that
    the object inherits. *)
Definition moved (key : string) (w : Env) : bool :=
  match moves w !! key with
  | Some dest => negb (String.eqb dest "")
  | None => bool_decide (key ∈ inherited)
  end.

Definition on_cache {A : Type} (what : call) (f : C → C * A) (w : Env) : Env * A :=
  let r := f (cacheStore w) in
  ({| moves := moves w; cacheStore := fst r; fallbackStore := fallbackStore w;
      trace := trace w ++ [Issued Cache what] |}, snd r).

Definition on_fallback {A : Type} (what : call) (f : F → F * A) (w : Env) : Env * A :=
  let r := f (fallbackStore w) in
  ({| moves := moves w; cacheStore := cacheStore w; fallbackStore := fst r;
      trace := trace w ++ [Issued Fallback what] |}, snd r).

(** The [dispose] option given to the tracker. *)
Definition dispose (key : string) (_ : number) (w : Env) : Env :=
  if moved key w
  then {| moves := delete key (moves w); cacheStore := cacheStore w;
          fallbackStore := fallbackStore w; trace := trace w ++ [Forgotten key] |}
  else fst (on_cache (Unlink key) (store_unlink key) w).

(** [size += data.length] over the ['data'] events. *)
Definition observed (sourceStream : Readable) : Z :=
  fold_left (fun size data => (size + Z.of_nat (List.length data))%Z)
            (chunks sourceStream) 0%Z.

Definition ensure (key : string) (sourceStream : Readable) (this : t)
  : t * promise jsvalue :=
  let size := observed sourceStream in
  let f := on_fallback (Ensure key sourceStream) (store_ensure key sourceStream) (env this) in
  let c := on_cache (Ensure key sourceStream) (store_ensure key sourceStream) (fst f) in
  match join (snd f) (snd c) with
  | Fulfilled _ =>
      let r := LRU.set dispose key (Some size) (lru this, fst c) in
      ({| cacheLimit := cacheLimit this; lru := fst (fst r); env := snd (fst r) |},
       Fulfilled VNull)
  | Rejected e =>
      ({| cacheLimit := cacheLimit this; lru := lru this; env := fst c |}, Rejected e)
  | Pending =>
      ({| cacheLimit := cacheLimit this; lru := lru this; env := fst c |}, Pending)
  end.

(** The [PassThrough] of a cache miss: it carries what the fallback store
    pipes into it and ends when the fallback store is done. *)
Definition passThrough (piped : list Buffer) (outcome : promise jsvalue) : Readable :=
  {| chunks := piped;
     finish := match outcome with Fulfilled _ => Ended | _ => Stalled end |}.

(** The third component is what reaches [dest]. *)
Definition stream (key : string) (this : t) : t * promise jsvalue * list Buffer :=
  let g := LRU.get key (lru this) in
  let size := snd g in
  if nonzero size then
    let c := on_cache (Stream key) (store_stream key) (env this) in
    ({| cacheLimit := cacheLimit this; lru := fst g; env := fst c |},
     fst (snd c), snd (snd c))
  else
    let f := on_fallback (Stream key) (store_stream key) (env this) in
    let pass := passThrough (snd (snd f)) (fst (snd f)) in
    let c := on_cache (Ensure key pass) (store_ensure key pass) (fst f) in
    match join (fst (snd f)) (snd c) with
    | Fulfilled result =>
        ({| cacheLimit := cacheLimit this; lru := fst (LRU.get key (fst g));
            env := fst c |}, Fulfilled (fst result), chunks pass)
    | Rejected e =>
        ({| cacheLimit := cacheLimit this; lru := fst g; env := fst c |},
         Rejected e, chunks pass)
    | Pending =>
        ({| cacheLimit := cacheLimit this; lru := fst g; env := fst c |},
         Pending, chunks pass)
    end.

(** [this.moves[source] = dest]: the pair becomes a property of
    [this.moves], but for the source [__proto__], where the assignment of a
    string does nothing. *)
Definition assigned (source dest : string) (moves : gmap string string)
  : gmap string string :=
  if String.eqb source "__proto__" then moves else <[source := dest]> moves.

Definition record_move (source dest : string) (w : Env) : Env :=
  {| moves := assigned source dest (moves w); cacheStore := cacheStore w;
     fallbackStore := fallbackStore w; trace := trace w ++ [Recorded source dest] |}.

(** [Promise.try(() => this.cacheStore.exists(source))
      .then(exists => exists && this.cacheStore.move(source, dest))] *)
Definition move_in_cache (source dest : string) (w : Env) : Env * promise jsvalue :=
  let e := on_cache (Exists source) (store_exists source) w in
  match snd e with
  | Fulfilled exists_ =>
      if truthy exists_
      then on_cache (Move source dest) (store_move source dest) (fst e)
      else (fst e, Fulfilled exists_)
  | Rejected err => (fst e, Rejected err)
  | Pending => (fst e, Pending)
  end.

Definition move (source dest : string) (this : t) : t * promise jsvalue :=
  let w := record_move source dest (env this) in
  let f := on_fallback (Move source dest) (store_move source dest) w in
  let c := move_in_cache source dest (fst f) in
  match join (snd f) (snd c) with
  | Fulfilled both =>
      let g := LRU.get source (lru this) in
      let size := snd g in
      let d := LRU.del dispose source (fst g, fst c) in
      let s := LRU.set dispose dest size d in
      ({| cacheLimit := cacheLimit this; lru := fst (fst s); env := snd (fst s) |},
       Fulfilled (VArr [fst both; snd both]))
  | Rejected e =>
      ({| cacheLimit := cacheLimit this; lru := lru this; env := fst c |}, Rejected e)
  | Pending =>
      ({| cacheLimit := cacheLimit this; lru := lru this; env := fst c |}, Pending)
  end.

Definition exists_ (key : string) (this : t) : t * promise jsvalue :=
  let f := on_fallback (Exists key) (store_exists key) (env this) in
  ({| cacheLimit := cacheLimit this; lru := lru this; env := fst f |}, snd f).

Definition unlink (key : string) (this : t) : t * promise jsvalue :=
  let f := on_fallback (Unlink key) (store_unlink key) (env this) in
  let c := on_cache (Unlink key) (store_unlink key) (fst f) in
  ({| cacheLimit := cacheLimit this; lru := lru this; env := fst c |},
   match join (snd f) (snd c) with
   | Fulfilled ret => Fulfilled (fst ret)
   | Rejected e => Rejected e
   | Pending => Pending
   end).

(** [!this[name]] fails for the names that [this] already has; of what
    they hold only [cacheLimit] can be falsy (when it is 0). *)
Definition defined (name : string) (this : t) : bool :=
  bool_decide (name ∈ members) &&
  negb (String.eqb name "cacheLimit" && (cacheLimit this =? 0)%Z).

Definition with_env (this : t) (r : Env * completion) : t * completion :=
  ({| cacheLimit := cacheLimit this; lru := lru this; env := fst r |}, snd r).

(** The method made for a function [f] found under [name] in the cache
    store (first loop of the constructor). *)
Definition cache_proxy (name : string) (f : list jsvalue → C → C * completion)
  (args : list jsvalue) (this : t) : t * completion :=
  let r := on_cache (Extra name args) (f args) (env this) in
  let ret := snd r in
  match ret with
  | Throw e => with_env this (fst r, Throw e)
  | _ =>
      with_env this
        (thenSync ret
           (fun w =>
              match extra (S := F) name with
              | Some g => on_fallback (Extra name args) (g args) w
              | None => (w, ret)
              end)
           (fst r))
  end.

(** The method made for a function [g] found under [name] in the fallback
    store only (second loop of the constructor; the cache store has no
    function of that name, so [ret] stays [null]). *)
Definition fallback_proxy (name : string) (g : list jsvalue → F → F * completion)
  (args : list jsvalue) (this : t) : t * completion :=
  let ret := Return VNull in
  with_env this
    (thenSync ret (fun w => on_fallback (Extra name args) (g args) w) (env this)).

(** The proxy that the constructor makes for [name], if it makes one. *)
Definition proxy (name : string) (this : t)
  : option (list jsvalue → t → t * completion) :=
  if defined name this then None
  else
    match extra (S := C) name with
    | Some f => Some (cache_proxy name f)
    | None =>
        match extra (S := F) name with
        | Some g => Some (fallback_proxy name g)
        | None => None
        end
    end.

(** The operations that change a [CacheStore], and a run of them. *)
Inductive operation : Type :=
| DoEnsure (key : string) (sourceStream : Readable)
| DoStream (key : string)
| DoMove (source dest : string)
| DoUnlink (key : string).

(** The keys that an operation names. *)
Definition keys_of (op : operation) : list string :=
  match op with
  | DoEnsure key _ | DoStream key | DoUnlink key => [key]
  | DoMove source dest => [source; dest]
  end.

Definition step (op : operation) (this : t) : t :=
  match op with
  | DoEnsure key sourceStream => fst (ensure key sourceStream this)
  | DoStream key => fst (fst (stream key this))
  | DoMove source dest => fst (move source dest this)
  | DoUnlink key => fst (unlink key this)
  end.

Definition run (ops : list operation) (this : t) : t :=
  fold_left (fun st op => step op st) ops this.

(** A run in which every rename is of a key that the tracker holds at that
    point. *)
Fixpoint renames_tracked (ops : list operation) (this : t) : Prop :=
  match ops with
  | [] => True
  | op :: rest =>
      match op with
      | DoMove source _ => LRU.has source (lru this) = true
      | _ => True
      end ∧ renames_tracked rest (step op this)
  end.

(** The events of a rename, before the tracker is updated; [reported] is
    whether the cache store said that it has the source key. *)
Definition rename_events (source dest : string) (reported : bool) : list event :=
  [Recorded source dest; Issued Fallback (Move source dest);
   Issued Cache (Exists source)] ++
  (if reported then [Issued Cache (Move source dest)] else []).

(** [exists] as the condition of [exists && ...], once the promise is
    fulfilled. *)
Definition reports (answer : promise jsvalue) : bool :=
  match answer with
  | Fulfilled v => truthy v
  | _ => false
  end.

(** The events that [dispose] can add. *)
Definition disposal (ev : event) : Prop :=
  match ev with
  | Forgotten _ | Issued Cache (Unlink _) => True
  | _ => False
  end.

(** What [dispose] respects: it leaves the fallback store alone and adds
    nothing to the trace but its own events. *)
Definition disposed (w w' : Env) : Prop :=
  fallbackStore w' = fallbackStore w ∧
  ∃ evs, trace w' = trace w ++ evs ∧ Forall disposal evs.

End Tiers.

(** The sentences of the specification that the code does not bear out,
    as they are worded; each is about every pair of stores. *)

Definition budget_claim : Prop :=
  ∀ (C F : Type) (SC : Store C) (SF : Store F) (cache : C) (fallback : F)
    (L : Z) (ops : list operation),
    (LRU.tracked (lru (run ops (CacheStore cache fallback (Some L)))) ≤ L)%Z.

Definition forwarding_claim : Prop :=
  ∀ (C F : Type) (SC : Store C) (SF : Store F) (name : string)
    (f : list jsvalue → C → C * completion) (g : list jsvalue → F → F * completion)
    (args : list jsvalue) (this : @t C F),
    extra (S := C) name = Some f → extra (S := F) name = Some g →
    defined name this = false →
    ∃ m, proxy name this = Some m ∧
         trace (env (fst (m args this)))
           = trace (env this) ++ [Issued Cache (Extra name args);
                                  Issued Fallback (Extra name args)] ∧
         snd (m args this) = snd (f args (cacheStore (env this))).

Definition eviction_claim : Prop :=
  ∀ (C F : Type) (SC : Store C) (SF : Store F) (key : string) (size : number)
    (w : @Env C F),
    (is_Some (moves w !! key) →
     moves (dispose key size w) !! key = None ∧
     trace (dispose key size w) = trace w ++ [Forgotten key]) ∧
    (moves w !! key = None →
     trace (dispose key size w) = trace w ++ [Issued Cache (Unlink key)]) ∧
    fallbackStore (dispose key size w) = fallbackStore w.


Definition hit_after_unlink_claim : Prop :=
  ∀ (C F : Type) (SC : Store C) (SF : Store F) (cache : C) (fallback : F)
    (L : Z) (ops : list operation) (key : string),
    let this := run ops (CacheStore cache fallback (Some L)) in
    let after := fst (unlink key this) in
    LRU.has key (lru this) = true →
    LRU.has key (lru after) = true ∧
    LRU.peek key (lru after) = LRU.peek key (lru this) ∧
    trace (env (fst (fst (stream key after))))
      = trace (env after) ++ [Issued Cache (Stream key)].

End CacheStore.

(** ** The stores of the test suite *)

(** [MemoryStore] as a store: what it returns, settled. *)
Definition memoryStore : CacheStore.Store MemoryStore.t :=
  {| CacheStore.store_ensure key sourceStream this :=
       let r := MemoryStore.ensure key sourceStream this in (fst r, settle (snd r));
     CacheStore.store_stream key this :=
       let r := MemoryStore.stream key this in
       (fst (fst r), (settle (snd (fst r)), snd r));
     CacheStore.store_move source dest this :=
       let r := MemoryStore.move source dest this in (fst r, settle (snd r));
     CacheStore.store_exists key this :=
       (this, Fulfilled (VBool (MemoryStore.exists_ key this)));
     CacheStore.store_unlink key this :=
       let r := MemoryStore.unlink key this in (fst r, settle (snd r));
     CacheStore.extra _ := None |}.

(** [store[name] = () => result]: a store object given one more method, as
    the proxying tests do with their spies. *)
Definition withMethod {S : Type} (name : string) (result : completion)
  (store : CacheStore.Store S) : CacheStore.Store S :=
  {| CacheStore.store_ensure := @CacheStore.store_ensure S store;
     CacheStore.store_stream := @CacheStore.store_stream S store;
     CacheStore.store_move := @CacheStore.store_move S store;
     CacheStore.store_exists := @CacheStore.store_exists S store;
     CacheStore.store_unlink := @CacheStore.store_unlink S store;
     CacheStore.extra n :=
       if String.eqb n name then Some (fun _ this => (this, result))
       else @CacheStore.extra S store n |}.

(** The store of the eviction test: two [MemoryStore]s and a budget of
    100 bytes. *)
Definition cachedStore : @CacheStore.t MemoryStore.t MemoryStore.t :=
  CacheStore.CacheStore MemoryStore.MemoryStore MemoryStore.MemoryStore (Some 100).

(** [_.repeat('a', n)] as a stream. *)
Definition blob (n : nat) : Readable := readable_of (repeat Byte.x61 n).

(** ** The facade *)

(** Modelled from the spec: the content-addressed facade of 4.1
    ([preparePut], [finalizePut], [put], [readFile]) and the pure key
    derivation of section 3; the code of the facade is not under src/.  The
    facade works on whichever store it was configured with. *)

Module Cafs.

Section Facade.

Context {S : Type} {store_of : CacheStore.Store S} {Meta : Type}.

(** The configured digest of a byte sequence, and the key derivation:
    without a hash it gives the temporary key, with one the final key. *)
Variable digest : Buffer → string.
Variable mapKey : option string → Meta → string.

(** Modelled from the spec: the BlobInfo of section 3 (the facade is not
    under src/). *)
Record BlobInfo : Type := {
  key : string;
  hash : option string;
  size : option Z;
  meta : Meta
}.

(** Modelled from the spec: [preparePut] of 4.1 (not under src/): the
    source is written under the temporary key while it is hashed. *)
Definition preparePut (source : Buffer) (meta : Meta) (store : S)
  : S * promise BlobInfo :=
  let key := mapKey None meta in
  let r := CacheStore.store_ensure key (readable_of source) store in
  match snd r with
  | Fulfilled _ =>
      (fst r, Fulfilled {| key := key; hash := Some (digest source);
                           size := Some (Z.of_nat (List.length source));
                           meta := meta |})
  | Rejected e => (fst r, Rejected e)
  | Pending => (fst r, Pending)
  end.

(** Modelled from the spec: [finalizePut] of 4.1 (not under src/): a
    rename from the temporary key to the key derived from the hash. *)
Definition finalizePut (info : BlobInfo) (store : S) : S * promise BlobInfo :=
  let final := mapKey (hash info) (meta info) in
  let r := CacheStore.store_move (key info) final store in
  match snd r with
  | Fulfilled _ =>
      (fst r, Fulfilled {| key := final; hash := hash info; size := size info;
                           meta := meta info |})
  | Rejected e => (fst r, Rejected e)
  | Pending => (fst r, Pending)
  end.

(** Modelled from the spec: [put] of 4.1 (not under src/): [preparePut]
    followed by [finalizePut]. *)
Definition put (source : Buffer) (meta : Meta) (store : S) : S * promise BlobInfo :=
  let p := preparePut source meta store in
  match snd p with
  | Fulfilled info => finalizePut info (fst p)
  | Rejected e => (fst p, Rejected e)
  | Pending => (fst p, Pending)
  end.

(** Modelled from the spec: [readFile] of 4.1 (not under src/): the
    store's read-by-key, buffered into one result. *)
Definition readFile (info : BlobInfo) (store : S) : S * promise Buffer :=
  let r := CacheStore.store_stream (key info) store in
  match fst (snd r) with
  | Fulfilled _ => (fst r, Fulfilled (concat (snd (snd r))))
  | Rejected e => (fst r, Rejected e)
  | Pending => (fst r, Pending)
  end.

End Facade.

(** Modelled from the spec: the store contract of 4.2, as far as a put and
    a read rely on it.  [content] is what a store holds under a key. *)
Class Contract (S : Type) {store_of : CacheStore.Store S} : Type := {
  content : S → string → option Buffer;
  write_by_key : ∀ key b store,
    ∃ store' v, CacheStore.store_ensure key (readable_of b) store = (store', Fulfilled v) ∧
                content store' key = Some b;
  read_by_key : ∀ key b store,
    content store key = Some b →
    ∃ store' v piped, CacheStore.store_stream key store = (store', (Fulfilled v, piped)) ∧
                      concat piped = b;
  rename_key : ∀ source dest b store,
    content store source = Some b →
    ∃ store' v, CacheStore.store_move source dest store = (store', Fulfilled v) ∧
                content store' dest = Some b
}.

(** Modelled from the spec: a store that does what the table of 4.2 says, on
    a finite map from keys to byte sequences. *)
Definition tableStore : CacheStore.Store (gmap string Buffer) :=
  {| CacheStore.store_ensure key sourceStream store :=
       match finish sourceStream with
       | Ended => (<[key := concat (chunks sourceStream)]> store, Fulfilled VUndefined)
       | Errored e => (store, Rejected e)
       | Stalled => (store, Pending)
       end;
     CacheStore.store_stream key store :=
       match store !! key with
       | Some b => (store, (Fulfilled VUndefined, [b]))
       | None => (store, (Rejected "ENOENT", []))
       end;
     CacheStore.store_move source dest store :=
       match store !! source with
       | Some b => (<[dest := b]> (delete source store), Fulfilled VUndefined)
       | None => (store, Rejected "ENOENT")
       end;
     CacheStore.store_exists key store :=
       (store, Fulfilled (VBool (bool_decide (is_Some (store !! key)))));
     CacheStore.store_unlink key store := (delete key store, Fulfilled VUndefined);
     CacheStore.extra _ := None |}.

End Cafs.

(** * Properties *)

(** A key written out is ordinary, or is not, by looking at it. *)
Ltac by_key := apply (bool_decide_unpack _); vm_compute; exact I.

(** ** The recency list *)

Section RecencyList.

Import LRU.

Lemma node_of_Some k l hit :
  node_of k l = Some hit → key hit = k ∧ In hit l.
Proof.
  unfold node_of. intros Hf. apply find_some in Hf as [Hin Heq].
  apply String.eqb_eq in Heq. by split.
Qed.

Lemma node_of_None k l : node_of k l = None → k ∉ map key l.
Proof.
  induction l as [|hit l IH]; simpl; intros Hf.
  - apply not_elem_of_nil.
  - destruct (String.eqb_spec (key hit) k) as [|Hne]; [done|].
    apply not_elem_of_cons. split; [congruence | by apply IH].
Qed.

Lemma node_of_is_Some k l : k ∈ map key l → is_Some (node_of k l).
Proof.
  intros Hin. destruct (node_of k l) eqn:Hf; [by eexists|].
  by apply node_of_None in Hf.
Qed.

Lemma removeNode_keys k k' l :
  NoDup (map key l) →
  k' ∈ map key (removeNode k l) ↔ k' ∈ map key l ∧ k' ≠ k.
Proof.
  induction l as [|hit l IH]; simpl; intros Hnd.
  - split; [intros Hin | intros [Hin _]]; by apply elem_of_nil in Hin.
  - apply NoDup_cons in Hnd as [Hhit Hnd].
    destruct (String.eqb_spec (key hit) k) as [Heq|Hne]; simpl.
    + rewrite elem_of_cons, Heq. rewrite Heq in Hhit. split.
      * intros Hin. split; [by right|]. intros ->. by apply Hhit.
      * intros [[->|Hin] Hk]; [by destruct Hk | done].
    + rewrite !elem_of_cons, IH by done. split.
      * intros [->|[Hin Hk]]; split; auto.
      * intros [[->|Hin] Hk]; auto.
Qed.

Lemma removeNode_NoDup k l :
  NoDup (map key l) → NoDup (map key (removeNode k l)).
Proof.
  induction l as [|hit l IH]; simpl; intros Hnd; [done|].
  apply NoDup_cons in Hnd as [Hhit Hnd].
  destruct (String.eqb_spec (key hit) k); [done|]. simpl.
  apply NoDup_cons. split; [|by apply IH].
  rewrite removeNode_keys by done. tauto.
Qed.

Lemma removeNode_Forall (P : Entry → Prop) k l :
  Forall P l → Forall P (removeNode k l).
Proof.
  induction 1 as [|hit l Hp Hl IH]; simpl; [done|].
  destruct (String.eqb (key hit) k); [done|]. by constructor.
Qed.

Lemma removeNode_total k l hit :
  node_of k l = Some hit →
  total l = (default 0 (length hit) + total (removeNode k l))%Z.
Proof.
  unfold node_of. induction l as [|e l IH]; simpl; [done|].
  destruct (String.eqb (key e) k); simpl.
  - by intros [= ->].
  - intros Hf. rewrite (IH Hf). lia.
Qed.

Lemma removeNode_last l w :
  NoDup (map key (l ++ [w])) → removeNode (key w) (l ++ [w]) = l.
Proof.
  induction l as [|e l IH]; simpl; intros Hnd.
  - by rewrite String.eqb_refl.
  - apply NoDup_cons in Hnd as [He Hnd].
    destruct (String.eqb_spec (key e) (key w)) as [Heq|Hne].
    + exfalso. apply He. rewrite map_app, elem_of_app. right.
      simpl. rewrite Heq. apply list_elem_of_singleton. done.
    + by rewrite IH.
Qed.

Lemma node_of_removeNode_ne k k' l :
  k' ≠ k → node_of k' (removeNode k l) = node_of k' l.
Proof.
  intros Hne. unfold node_of. induction l as [|e l IH]; simpl; [done|].
  destruct (String.eqb_spec (key e) k) as [Hk|Hk]; simpl.
  - destruct (String.eqb_spec (key e) k'); [congruence|done].
  - destruct (String.eqb (key e) k'); [done|apply IH].
Qed.

Lemma updateNode_keys k v len l : map key (updateNode k v len l) = map key l.
Proof.
  induction l as [|e l IH]; simpl; [done|].
  destruct (String.eqb (key e) k); simpl; by rewrite ?IH.
Qed.

Lemma updateNode_node_of k v len l item :
  node_of k l = Some item →
  node_of k (updateNode k v len l) = Some {| key := key item; value := v; length := len |}.
Proof.
  unfold node_of. induction l as [|e l IH]; simpl; [done|].
  destruct (String.eqb (key e) k) eqn:He; simpl.
  - intros [= ->]. by rewrite He.
  - rewrite He. apply IH.
Qed.

Lemma updateNode_total k v len l item :
  node_of k l = Some item →
  total (updateNode k v len l) = (total l - default 0 (length item) + default 0 len)%Z.
Proof.
  unfold node_of. induction l as [|e l IH]; simpl; [done|].
  destruct (String.eqb (key e) k); simpl.
  - intros [= ->]. lia.
  - intros Hf. rewrite (IH Hf). lia.
Qed.

Lemma updateNode_Forall (P : Entry → Prop) k v len l :
  Forall P l → (∀ item, P item → P {| key := key item; value := v; length := len |}) →
  Forall P (updateNode k v len l).
Proof.
  intros Hl Hp. induction Hl as [|e l He Hl IH]; simpl; [done|].
  destruct (String.eqb (key e) k); constructor; auto.
Qed.

Lemma LRU_invariant max : invariant (LRU max).
Proof.
  unfold LRU, invariant, consistent, tracked. simpl. repeat split.
  - apply NoDup_nil_2.
  - constructor.
  - right. split; [done | constructor].
  - destruct (Z.leb_spec max 0); [done|]. apply Z.ltb_ge. lia.
Qed.

Lemma get_fields k self :
  MAX (fst (get k self)) = MAX self ∧ LENGTH (fst (get k self)) = LENGTH self.
Proof. unfold get, get_. by destruct (node_of k (LRU_LIST self)). Qed.

Lemma get_absent k self : has k self = false → get k self = (self, None).
Proof. unfold has, get, get_. by destruct (node_of k (LRU_LIST self)). Qed.

Lemma get_peek k self : snd (get k self) = peek k self.
Proof. unfold peek, get, get_. by destruct (node_of k (LRU_LIST self)). Qed.

Lemma unshiftNode_consistent k self hit :
  node_of k (LRU_LIST self) = Some hit →
  consistent self →
  consistent {| MAX := MAX self; LENGTH := LENGTH self;
                LRU_LIST := unshiftNode hit (LRU_LIST self) |}.
Proof.
  intros Hf (Hnd & Hok & Hlen). pose proof (node_of_Some _ _ _ Hf) as [Hk Hin].
  unfold consistent, tracked, unshiftNode. simpl. rewrite Hk.
  apply list_elem_of_In in Hin.
  split; [|split].
  - apply NoDup_cons. split; [|by apply removeNode_NoDup].
    rewrite removeNode_keys by done. tauto.
  - constructor; [|by apply removeNode_Forall].
    by apply (proj1 (Forall_forall _ _) Hok).
  - destruct Hlen as [Hnan|[Hsum Hnum]]; [by left|right]. split.
    + rewrite Hsum. unfold tracked. by rewrite (removeNode_total _ _ _ Hf).
    + constructor; [|by apply removeNode_Forall].
      by apply (proj1 (Forall_forall _ _) Hnum).
Qed.

Lemma get_invariant k self : invariant self → invariant (fst (get k self)).
Proof.
  intros [Hc Hb]. unfold get, get_.
  destruct (node_of k (LRU_LIST self)) as [hit|] eqn:Hf; simpl; [|by split].
  split; [by apply (unshiftNode_consistent k)|done].
Qed.

End RecencyList.

(** ** The tracker *)

Section Tracker.

Import LRU.

Context {W : Type} (dispose : string → number → W → W).

(** Taking an entry out keeps the fields in agreement, and a total that is
    a number stays one. *)
Lemma del_node_consistent k self hit w :
  node_of k (LRU_LIST self) = Some hit →
  consistent self →
  consistent (fst (del_ dispose (Some hit) (self, w))) ∧
  (∀ t, LENGTH self = Some t →
     ∃ n, length hit = Some n ∧ (0 ≤ n)%Z ∧
          LENGTH (fst (del_ dispose (Some hit) (self, w))) = Some (t - n)%Z).
Proof.
  intros Hf (Hnd & Hok & Hlen). pose proof (node_of_Some _ _ _ Hf) as [Hk Hin].
  apply list_elem_of_In in Hin.
  pose proof (proj1 (Forall_forall _ _) Hok _ Hin) as (Hv & Hfit & Hpos).
  unfold consistent, tracked. simpl. rewrite Hk.
  destruct Hlen as [Hnan|[Hsum Hnum]].
  - rewrite Hnan. simpl. repeat split.
    + by apply removeNode_NoDup.
    + by apply removeNode_Forall.
    + by left.
    + intros t [=].
  - destruct (proj1 (Forall_forall _ _) Hnum _ Hin) as [n Hn].
    rewrite Hsum, Hn. unfold tracked. simpl. repeat split.
    + by apply removeNode_NoDup.
    + by apply removeNode_Forall.
    + right. split; [|by apply removeNode_Forall].
      f_equal. rewrite (removeNode_total _ _ _ Hf), Hn. simpl. lia.
    + intros t [= <-]. exists n. repeat split. by apply Hpos.
Qed.

Lemma del_node_invariant k self hit w :
  node_of k (LRU_LIST self) = Some hit →
  invariant self →
  invariant (fst (del_ dispose (Some hit) (self, w))).
Proof.
  intros Hf [Hc Hb]. destruct (del_node_consistent k self hit w Hf Hc) as [Hc' Hn].
  split; [done|]. destruct (LENGTH self) as [t|] eqn:Ht.
  - destruct (Hn t eq_refl) as (n & _ & Hn0 & ->). simpl.
    unfold exceeds in *. destruct (MAX self); [|done].
    apply Z.ltb_ge. apply Z.ltb_ge in Hb. lia.
  - simpl. by rewrite Ht.
Qed.

Lemma del_invariant k self w :
  invariant self → invariant (fst (del dispose k (self, w))).
Proof.
  intros Hinv. unfold del. simpl.
  destruct (node_of k (LRU_LIST self)) as [hit|] eqn:Hf; [|done].
  by apply (del_node_invariant k).
Qed.

Lemma del_fields k self w :
  MAX (fst (del dispose k (self, w))) = MAX self ∧
  (is_Some (LENGTH self) → (∀ hit, node_of k (LRU_LIST self) = Some hit → is_Some (length hit)) →
   is_Some (LENGTH (fst (del dispose k (self, w))))).
Proof.
  unfold del. simpl.
  destruct (node_of k (LRU_LIST self)) as [hit|] eqn:Hf; simpl; [|by split].
  split; [done|]. intros [t Ht] Hnum. destruct (Hnum hit eq_refl) as [n Hn].
  rewrite Ht, Hn. by eexists.
Qed.

Lemma del_has k self w :
  invariant self → has k (fst (del dispose k (self, w))) = false.
Proof.
  intros [(Hnd & _) _]. unfold del, has. simpl.
  destruct (node_of k (LRU_LIST self)) as [hit|] eqn:Hf; simpl; [|by rewrite Hf].
  pose proof (node_of_Some _ _ _ Hf) as [Hk _]. rewrite Hk.
  destruct (node_of k (removeNode k (LRU_LIST self))) as [e|] eqn:He; [|done].
  apply node_of_Some in He as [Hke Hin].
  assert (k ∈ map key (removeNode k (LRU_LIST self))) as Hmem.
  { pose proof (in_map key _ _ Hin) as Hm. rewrite Hke in Hm.
    by apply list_elem_of_In. }
  apply removeNode_keys in Hmem; [|done]. by destruct Hmem.
Qed.

Lemma node_of_last l w :
  NoDup (map key (l ++ [w])) → node_of (key w) (l ++ [w]) = Some w.
Proof.
  unfold node_of. induction l as [|e l IH]; simpl; intros Hnd.
  - by rewrite String.eqb_refl.
  - apply NoDup_cons in Hnd as [He Hnd].
    destruct (String.eqb_spec (key e) (key w)) as [Heq|Hne]; [|by apply IH].
    exfalso. apply He. rewrite map_app, elem_of_app. right.
    simpl. rewrite Heq. by apply list_elem_of_singleton.
Qed.

(** The loop of [trim] on a tracker whose head is [e]: it stops with the
    total within the bound, and it only drops entries from the tail; the
    head stays. *)
Lemma trim_walk_spec ws : ∀ e self w,
  consistent self → LRU_LIST self = e :: rev ws →
  invariant (fst (trim_walk dispose (ws ++ [e]) (self, w))) ∧
  MAX (fst (trim_walk dispose (ws ++ [e]) (self, w))) = MAX self ∧
  (is_Some (LENGTH self) →
   is_Some (LENGTH (fst (trim_walk dispose (ws ++ [e]) (self, w))))) ∧
  ∃ kept dropped : list Entry, rev ws = (kept ++ dropped)%list ∧
    LRU_LIST (fst (trim_walk dispose (ws ++ [e]) (self, w))) = e :: kept.
Proof.
  induction ws as [|w0 ws IH]; intros e self w Hc Hl.
  - simpl. destruct (exceeds (LENGTH self) (MAX self)) eqn:Hex.
    + exfalso. destruct Hc as (_ & Hok & Hlen).
      rewrite Hl in Hok, Hlen. simpl in Hlen.
      apply Forall_cons in Hok as [(_ & Hfit & _) _].
      destruct Hlen as [Hnan|[Hsum Hnum]]; [by rewrite Hnan in Hex|].
      apply Forall_cons in Hnum as [[n Hn] _].
      unfold tracked in Hsum. rewrite Hl in Hsum. simpl in Hsum.
      rewrite Hsum, Hn in Hex. rewrite Hn in Hfit. simpl in Hex, Hfit.
      replace (n + 0)%Z with n in Hex by lia. congruence.
    + simpl. split; [by split|]. do 2 (split; [done|]).
      exists [], []. by rewrite Hl.
  - change (trim_walk dispose ((w0 :: ws) ++ [e]) (self, w))
      with (if exceeds (LENGTH self) (MAX self)
            then trim_walk dispose (ws ++ [e]) (del_ dispose (Some w0) (self, w))
            else (self, w)).
    simpl in Hl. destruct (exceeds (LENGTH self) (MAX self)) eqn:Hex.
    + assert (Hnd : NoDup (map key ((e :: rev ws) ++ [w0]))).
      { destruct Hc as (Hnd & _). by rewrite Hl in Hnd. }
      assert (Hf : node_of (key w0) (LRU_LIST self) = Some w0).
      { rewrite Hl. by apply (node_of_last (e :: rev ws)). }
      destruct (del_node_consistent _ self w0 w Hf Hc) as [Hc' Hn'].
      assert (Hl' : LRU_LIST (fst (del_ dispose (Some w0) (self, w))) = e :: rev ws).
      { simpl. rewrite Hl. by apply (removeNode_last (e :: rev ws)). }
      destruct (del_ dispose (Some w0) (self, w)) as [self' w'] eqn:Hd.
      simpl in Hc', Hl', Hn'.
      destruct (IH e self' w' Hc' Hl') as (Hinv & Hmax & Hsome & kept & dropped & Hk & Hlist).
      assert (Hmax' : MAX self' = MAX self).
      { simpl in Hd. by injection Hd as <- _. }
      split; [done|]. split; [by rewrite Hmax|]. split.
      * intros [t Ht]. apply Hsome. destruct (Hn' t Ht) as (n & _ & _ & ->).
        by eexists.
      * exists kept, (dropped ++ [w0])%list. split; [|done].
        simpl. rewrite Hk. by rewrite app_assoc.
    + simpl. split; [by split|]. do 2 (split; [done|]).
      exists (rev (w0 :: ws)), []. by rewrite app_nil_r.
Qed.

Lemma trim_spec e rest self w :
  consistent self → LRU_LIST self = e :: rest →
  invariant (fst (trim dispose (self, w))) ∧
  MAX (fst (trim dispose (self, w))) = MAX self ∧
  (is_Some (LENGTH self) → is_Some (LENGTH (fst (trim dispose (self, w))))) ∧
  ∃ kept dropped : list Entry, rest = (kept ++ dropped)%list ∧
    LRU_LIST (fst (trim dispose (self, w))) = e :: kept.
Proof.
  intros Hc Hl. unfold trim. simpl.
  destruct (exceeds (LENGTH self) (MAX self)) eqn:Hex.
  - rewrite Hl. simpl.
    assert (Hl' : LRU_LIST self = e :: rev (rev rest)) by by rewrite rev_involutive.
    destruct (trim_walk_spec (rev rest) e self w Hc Hl')
      as (Hinv & Hmax & Hsome & kept & dropped & Hk & Hlist).
    rewrite rev_involutive in Hk. do 3 (split; [done|]).
    by exists kept, dropped.
  - simpl. split; [by split|]. do 2 (split; [done|]).
    exists rest, []. by rewrite app_nil_r.
Qed.

Lemma removeNode_subset k k' l :
  k' ∈ map key (removeNode k l) → k' ∈ map key l.
Proof.
  induction l as [|e l IH]; simpl; [done|].
  destruct (String.eqb (key e) k); simpl.
  - intros Hin. by apply elem_of_cons; right.
  - rewrite !elem_of_cons. intros [->|Hin]; auto.
Qed.

Lemma has_keys k self : has k self = true ↔ k ∈ map key (LRU_LIST self).
Proof.
  unfold has. split.
  - destruct (node_of k (LRU_LIST self)) as [hit|] eqn:Hf; [|done]. intros _.
    apply node_of_Some in Hf as [<- Hin]. apply list_elem_of_In. by apply in_map.
  - intros Hin. by destruct (node_of_is_Some _ _ Hin) as [hit ->].
Qed.

Lemma has_false_keys k self : has k self = false ↔ k ∉ map key (LRU_LIST self).
Proof.
  rewrite <- has_keys. destruct (has k self); split; try done.
Qed.

(** What [set] does to a tracker that is in order: it stays in order; a
    value that fits the bound is registered under the key, at the head; no
    other key appears. *)
Lemma set_spec k v self w :
  invariant self → (∀ n, v = Some n → (0 ≤ n)%Z) →
  invariant (fst (fst (set dispose k v (self, w)))) ∧
  MAX (fst (fst (set dispose k v (self, w)))) = MAX self ∧
  (is_Some (LENGTH self) → is_Some v →
   is_Some (LENGTH (fst (fst (set dispose k v (self, w)))))) ∧
  (exceeds v (MAX self) = false →
   node_of k (LRU_LIST (fst (fst (set dispose k v (self, w)))))
     = Some {| key := k; value := v; length := v |}) ∧
  (∀ k', k' ∈ map key (LRU_LIST (fst (fst (set dispose k v (self, w))))) →
         k' = k ∨ k' ∈ map key (LRU_LIST self)).
Proof.
  intros [Hc Hb] Hv. pose proof Hc as (Hnd & Hok & Hlen).
  unfold set, lengthCalculator. cbv zeta. cbn [fst snd].
  destruct (node_of k (LRU_LIST self)) as [item|] eqn:Hf.
  - pose proof (node_of_Some _ _ _ Hf) as [Hk Hin].
    destruct (exceeds v (MAX self)) eqn:Hex.
    + (* the new value does not fit: the entry is dropped *)
      change (fst (del_ dispose (Some item) (self, w), false))
        with (del_ dispose (Some item) (self, w)).
      split; [by apply (del_node_invariant k)|]. split; [done|]. split; [|split; [done|]].
      * intros [t Ht] _.
        destruct (del_node_consistent k self item w Hf Hc) as [_ Hn].
        destruct (Hn t Ht) as (n & _ & _ & ->). by eexists.
      * simpl. intros k' Hk'. right. by apply removeNode_subset in Hk'.
    + (* the entry gets the new value and moves to the head *)
      set (item' := {| key := key item; value := v; length := v |}).
      set (self1 := {| MAX := MAX self;
                       LENGTH := plus (LENGTH self) (minus v (length item));
                       LRU_LIST := updateNode k v v (LRU_LIST self) |}).
      assert (Hf1 : node_of k (LRU_LIST self1) = Some item')
        by by apply updateNode_node_of.
      assert (Hc1 : consistent self1).
      { unfold consistent, tracked. simpl. rewrite updateNode_keys.
        split; [done|]. split.
        - apply updateNode_Forall; [done|]. intros e _.
          repeat split; try done; simpl; intros n Hn; by apply Hv.
        - apply list_elem_of_In in Hin.
          destruct Hlen as [Hnan|[Hsum Hnum]]; [left; by rewrite Hnan|].
          destruct (proj1 (Forall_forall _ _) Hnum _ Hin) as [m Hm].
          destruct v as [n|]; [right|left; by rewrite Hsum].
          split.
          + rewrite Hsum, Hm. unfold tracked. simpl. f_equal.
            rewrite (updateNode_total _ _ _ _ _ Hf), Hm. simpl. lia.
          + apply updateNode_Forall; [done|]. intros e _. by eexists. }
      remember (fst (get k self1)) as self2 eqn:Hg.
      assert (Hself2 : self2 = {| MAX := MAX self; LENGTH := LENGTH self1;
                                  LRU_LIST := item' :: removeNode k (LRU_LIST self1) |}).
      { rewrite Hg. unfold get, get_. rewrite Hf1. unfold unshiftNode. simpl.
        by rewrite Hk. }
      assert (Hc2 : consistent self2).
      { rewrite Hg. unfold get, get_. rewrite Hf1.
        exact (unshiftNode_consistent k self1 item' Hf1 Hc1). }
      assert (Hl2 : LRU_LIST self2 = item' :: removeNode k (LRU_LIST self1))
        by by rewrite Hself2.
      assert (Hm2 : MAX self2 = MAX self) by by rewrite Hself2.
      assert (HL2 : LENGTH self2 = plus (LENGTH self) (minus v (length item)))
        by by rewrite Hself2.
      clear Hself2 Hg.
      destruct (trim_spec item' _ self2 w Hc2 Hl2)
        as (Hinv & Hmax & Hsome & kept & dropped & Hrest & Hlist).
      destruct (trim dispose (self2, w)) as [self3 w3]. cbn [fst snd] in *.
      split; [done|]. split; [congruence|]. split; [|split].
      * intros [t Ht] [n ->]. apply Hsome. rewrite HL2, Ht.
        destruct Hlen as [Hnan|[_ Hnum]]; [congruence|].
        apply list_elem_of_In in Hin.
        destruct (proj1 (Forall_forall _ _) Hnum _ Hin) as [m ->]. by eexists.
      * intros _. rewrite Hlist. unfold node_of, item'. simpl.
        by rewrite Hk, String.eqb_refl.
      * intros k' Hk'. rewrite Hlist in Hk'. simpl in Hk'.
        apply elem_of_cons in Hk' as [->|Hk']; [by left|right].
        assert (k' ∈ map key (removeNode k (updateNode k v v (LRU_LIST self)))) as Hm.
        { change (LRU_LIST self1) with (updateNode k v v (LRU_LIST self)) in Hrest.
          rewrite Hrest, map_app, elem_of_app. by left. }
        apply removeNode_subset in Hm. by rewrite updateNode_keys in Hm.
  - change (length {| key := k; value := v; length := v |}) with v.
    destruct (exceeds v (MAX self)) eqn:Hex; cbn [fst snd].
    + (* too large to be tracked *)
      split; [by split|]. do 3 (split; [done|]). intros k' Hk'. by right.
    + set (hit := {| key := k; value := v; length := v |}).
      set (self1 := {| MAX := MAX self; LENGTH := plus (LENGTH self) v;
                       LRU_LIST := hit :: LRU_LIST self |}).
      assert (Hc1 : consistent self1).
      { unfold consistent, tracked. simpl. split; [|split].
        - apply NoDup_cons. split; [by apply node_of_None|done].
        - constructor; [|done].
          repeat split; try done; simpl; intros n Hn; by apply Hv.
        - destruct Hlen as [Hnan|[Hsum Hnum]]; [left; by rewrite Hnan|].
          destruct v as [n|]; [right|left; by rewrite Hsum].
          split.
          + rewrite Hsum. unfold tracked. simpl. f_equal. lia.
          + constructor; [by eexists|done]. }
      assert (Hl1 : LRU_LIST self1 = hit :: LRU_LIST self) by done.
      assert (Hm1 : MAX self1 = MAX self) by done.
      assert (HL1 : LENGTH self1 = plus (LENGTH self) v) by done.
      clearbody self1.
      destruct (trim_spec hit _ self1 w Hc1 Hl1)
        as (Hinv & Hmax & Hsome & kept & dropped & Hrest & Hlist).
      destruct (trim dispose (self1, w)) as [self3 w3]. cbn [fst snd] in *.
      split; [done|]. split; [congruence|]. split; [|split].
      * intros [t Ht] [n ->]. apply Hsome. rewrite HL1, Ht. by eexists.
      * intros _. rewrite Hlist. unfold node_of, hit. simpl.
        by rewrite String.eqb_refl.
      * intros k' Hk'. rewrite Hlist in Hk'. simpl in Hk'.
        apply elem_of_cons in Hk' as [->|Hk']; [by left|right].
        rewrite Hrest, map_app, elem_of_app. by left.
Qed.

Lemma get_value_ok k self n :
  invariant self → snd (get k self) = Some n →
  (0 ≤ n)%Z ∧ exceeds (Some n) (MAX self) = false.
Proof.
  intros [(_ & Hok & _) _]. unfold get, get_.
  destruct (node_of k (LRU_LIST self)) as [hit|] eqn:Hf; simpl; [|done].
  intros Hv. apply node_of_Some in Hf as [_ Hin]. apply list_elem_of_In in Hin.
  destruct (proj1 (Forall_forall _ _) Hok _ Hin) as (Hlv & Hfit & Hpos).
  rewrite Hlv, Hv in Hfit. split; [|done]. apply Hpos. by rewrite Hlv.
Qed.

Lemma get_value_fits k self :
  invariant self → exceeds (snd (get k self)) (MAX self) = false.
Proof.
  intros [(_ & Hok & _) _]. unfold get, get_.
  destruct (node_of k (LRU_LIST self)) as [hit|] eqn:Hf; simpl; [|done].
  apply node_of_Some in Hf as [_ Hin]. apply list_elem_of_In in Hin.
  destruct (proj1 (Forall_forall _ _) Hok _ Hin) as (Hlv & Hfit & _).
  by rewrite <- Hlv.
Qed.

Lemma get_value_number k self :
  invariant self → is_Some (LENGTH self) → has k self = true →
  is_Some (snd (get k self)).
Proof.
  intros [(_ & Hok & Hlen) _] [t Ht]. unfold has, get, get_.
  destruct (node_of k (LRU_LIST self)) as [hit|] eqn:Hf; simpl; [|done].
  intros _. apply node_of_Some in Hf as [_ Hin]. apply list_elem_of_In in Hin.
  destruct Hlen as [Hnan|[_ Hnum]]; [congruence|].
  destruct (proj1 (Forall_forall _ _) Hok _ Hin) as (Hlv & _).
  rewrite <- Hlv. by apply (proj1 (Forall_forall _ _) Hnum).
Qed.

(** The total of a tracker in order, when it is a number, is the sum of the
    tracked sizes and is within the bound. *)
Lemma invariant_budget self L :
  invariant self → MAX self = Finite L → is_Some (LENGTH self) →
  (tracked self ≤ L)%Z.
Proof.
  intros [(_ & _ & Hlen) Hb] Hmax [t Ht].
  destruct Hlen as [Hnan|[Hsum _]]; [congruence|].
  rewrite Hsum, Hmax in Hb. simpl in Hb. by apply Z.ltb_ge in Hb.
Qed.

(** Whatever every [dispose] respects, the tracker respects. *)
Section Respects.

Context (R : W → W → Prop).
Hypothesis R_refl : ∀ w, R w w.
Hypothesis R_trans : ∀ a b c, R a b → R b c → R a c.
Hypothesis R_dispose : ∀ k v w, R w (dispose k v w).

Lemma del_node_respects node c : R (snd c) (snd (del_ dispose node c)).
Proof. destruct node; simpl; auto. Qed.

Lemma del_respects k c : R (snd c) (snd (del dispose k c)).
Proof. apply del_node_respects. Qed.

Lemma trim_walk_respects ws : ∀ c, R (snd c) (snd (trim_walk dispose ws c)).
Proof.
  induction ws as [|hit ws IH]; intros c; simpl; [done|].
  destruct (exceeds (LENGTH (fst c)) (MAX (fst c))); [|done].
  eapply R_trans; [|apply IH]. apply (del_node_respects (Some hit)).
Qed.

Lemma trim_respects c : R (snd c) (snd (trim dispose c)).
Proof.
  unfold trim. destruct (exceeds (LENGTH (fst c)) (MAX (fst c))); [|done].
  apply trim_walk_respects.
Qed.

Lemma set_respects k v c : R (snd c) (snd (fst (set dispose k v c))).
Proof.
  unfold set. cbv zeta.
  destruct (node_of k (LRU_LIST (fst c))) as [item|].
  - destruct (exceeds (lengthCalculator v) (MAX (fst c))); cbn [fst snd].
    + apply (del_node_respects (Some item)).
    + apply (trim_respects (_, snd c)).
  - destruct (exceeds _ (MAX (fst c))); cbn [fst snd].
    + apply R_dispose.
    + apply (trim_respects (_, snd c)).
Qed.

End Respects.

End Tracker.

(** ** MemoryStore *)

Section MemoryStoreFacts.

Import MemoryStore.

(** C7, as worded, fails: renaming a key onto itself succeeds and the key
    is still there afterwards. *)
Lemma move_onto_itself : ¬ rename_contract.
Proof.
  intros Hc.
  destruct (Hc {| data := {["a" := Buf [Byte.x61]]} |} "a" "a") as [_ Hp].
  destruct (Hp [Byte.x61] eq_refl) as (this' & Hmove & Hgone & _).
  vm_compute in Hmove. injection Hmove as <-. by vm_compute in Hgone.
Qed.

(** C7 (amended): for keys that are ordinary, [move(source, dest)] is
    rejected when the store holds no buffer under [source]; when it holds
    one the move is fulfilled, after which [dest] holds exactly that buffer
    (whatever it held before), the source key is gone if it differs from
    [dest], and no other key has changed. *)
Theorem move_renames (this : t) (source dest : string) :
  ordinary source → ordinary dest →
  (exists_ source this = false →
   move source dest this = (this, Async (Rejected (missing source)))) ∧
  (∀ b, data this !! source = Some (Buf b) →
     ∃ this', move source dest this = (this', Async (Fulfilled VUndefined)) ∧
              data this' !! dest = Some (Buf b) ∧
              (source ≠ dest → exists_ source this' = false) ∧
              (∀ other, other ≠ source → other ≠ dest →
                        data this' !! other = data this !! other)).
Proof.
  intros _ _. split.
  - unfold exists_, move. intros Hf. apply negb_false_iff in Hf. by rewrite Hf.
  - intros b Hb. unfold move. rewrite Hb. simpl. eexists. split; [done|].
    simpl. split; [by rewrite lookup_insert_eq|]. split.
    + intros Hne. unfold exists_. simpl.
      by rewrite lookup_insert_ne, lookup_delete_eq.
    + intros other Hs Hd. by rewrite lookup_insert_ne, lookup_delete_ne.
Qed.

Lemma move_renames_witness :
  let this := {| data := {["tmp" := Buf [Byte.x68; Byte.x69]; "old" := Buf []]} |} in
  exists_ "gone" this = false ∧
  move "gone" "old" this = (this, Async (Rejected (missing "gone"))) ∧
  ∃ this', move "tmp" "old" this = (this', Async (Fulfilled VUndefined)) ∧
           data this' !! "old" = Some (Buf [Byte.x68; Byte.x69]) ∧
           exists_ "tmp" this' = false.
Proof.
  intros this.
  destruct (move_renames this "gone" "old") as [Habsent _]; [by_key..|].
  destruct (move_renames this "tmp" "old") as [_ Hpresent]; [by_key..|].
  split; [reflexivity|]. split; [apply Habsent; reflexivity|].
  destruct (Hpresent [Byte.x68; Byte.x69] eq_refl) as (this' & Hm & Hd & Hs & _).
  exists this'. split; [exact Hm|]. split; [exact Hd|].
  apply Hs. discriminate.
Defined.

(** C10: [unlink(key)] returns without raising, also for a key the store
    does not hold (the store is then unchanged), and whatever the key, what
    is stored under every other key stays as it was. *)
Theorem unlink_frame (this : t) (key : string) :
  snd (unlink key this) = Return VUndefined ∧
  (data this !! key = None → fst (unlink key this) = this) ∧
  (∀ other, other ≠ key →
            data (fst (unlink key this)) !! other = data this !! other).
Proof.
  unfold unlink. simpl. split; [done|]. split.
  - intros Hn. destruct this as [d]. simpl in *. f_equal. by apply delete_id.
  - intros other Hne. by rewrite lookup_delete_ne.
Qed.

Lemma unlink_frame_witness :
  let this := {| data := {["kept" := Buf [Byte.x68]]} |} in
  snd (unlink "absent" this) = Return VUndefined ∧
  fst (unlink "absent" this) = this ∧
  data (fst (unlink "absent" this)) !! "kept" = Some (Buf [Byte.x68]).
Proof.
  intros this.
  destruct (unlink_frame this "absent") as (Hret & Hsame & Hother).
  split; [exact Hret|]. split; [apply Hsame; reflexivity|].
  rewrite (Hother "kept"); [reflexivity|discriminate].
Defined.

(** A stream that ends without data leaves [false] under the key, and the
    store then answers for that key as for one it never saw. *)
Lemma ensure_nothing key this :
  ordinary key →
  let this' := fst (ensure key {| chunks := []; finish := Ended |} this) in
  data this' !! key = Some NoContents ∧ exists_ key this' = false ∧
  snd (fst (stream key this')) = Async (Rejected (missing key)).
Proof.
  intros _. unfold ensure, exists_, stream. simpl. by rewrite lookup_insert_eq.
Qed.

End MemoryStoreFacts.

(** ** CacheStore: evictions, unlink and exists *)

Section CacheStoreFacts.

Import CacheStore.

Context {C F : Type} {SC : Store C} {SF : Store F}.



Lemma moved_spec key (w : @Env C F) :
  moved key w = true ↔
  (∃ dest, moves w !! key = Some dest ∧ dest ≠ "") ∨
  (moves w !! key = None ∧ key ∈ inherited).
Proof.
  unfold moved. destruct (moves w !! key) as [dest|]; split.
  - intros Hd. left. exists dest. split; [done|]. intros ->. done.
  - intros [(d & [= <-] & Hne)|[? _]]; [|done]. by destruct (String.eqb_spec dest "").
  - intros Hin. right. split; [done|]. by apply bool_decide_eq_true in Hin.
  - intros [(d & Hd & _)|[_ Hin]]; [done|]. by apply bool_decide_eq_true.
Qed.

Lemma not_moved_spec key (w : @Env C F) :
  moved key w = false ↔
  moves w !! key = Some "" ∨ (moves w !! key = None ∧ ordinary key).
Proof.
  unfold moved, ordinary. destruct (moves w !! key) as [dest|]; split.
  - destruct (String.eqb_spec dest "") as [->|]; [by left|done].
  - intros [[= ->]|[? _]]; done.
  - intros Hin. right. split; [done|]. by apply bool_decide_eq_false in Hin.
  - intros [?|[_ Hin]]; [done|]. by apply bool_decide_eq_false.
Qed.

Lemma dispose_disposed key size (w : @Env C F) : disposed w (dispose key size w).
Proof.
  unfold dispose, on_cache. destruct (moved key w); simpl.
  - split; [done|]. exists [Forgotten key]. split; [done|]. by repeat constructor.
  - split; [done|]. exists [Issued Cache (Unlink key)]. split; [done|].
    by repeat constructor.
Qed.

(** C4, what the code does at an eviction: it takes [this.moves[key]] as
    a condition.  When [this.moves] holds a destination for the key that is
    not the empty key, or holds nothing for it while the key is a name that
    every object inherits, the eviction runs [delete this.moves[key]] and
    calls neither store.  When [this.moves] holds the empty key for it, or
    holds nothing for a key that is ordinary, the eviction calls [unlink] on
    the cache store, once, and leaves [this.moves] as it is.  The fallback
    store is never touched.  So a key that was renamed to the empty key is
    unlinked and stays in [this.moves], and a key such as [constructor]
    that was never renamed is not unlinked. *)
Theorem dispose_spec (key : string) (size : number) (w : @Env C F) :
  ((∃ dest, moves w !! key = Some dest ∧ dest ≠ "") ∨
   (moves w !! key = None ∧ key ∈ inherited) →
     moves (dispose key size w) = delete key (moves w) ∧
     trace (dispose key size w) = trace w ++ [Forgotten key] ∧
     cacheStore (dispose key size w) = cacheStore w) ∧
  (moves w !! key = Some "" ∨ (moves w !! key = None ∧ ordinary key) →
     moves (dispose key size w) = moves w ∧
     trace (dispose key size w) = trace w ++ [Issued Cache (Unlink key)] ∧
     cacheStore (dispose key size w) = fst (store_unlink key (cacheStore w))) ∧
  fallbackStore (dispose key size w) = fallbackStore w.
Proof.
  split; [|split].
  - intros Hm. unfold dispose.
    assert (moved key w = true) as -> by (by apply moved_spec). done.
  - intros Hm. unfold dispose, on_cache.
    assert (moved key w = false) as -> by (by apply not_moved_spec). done.
  - apply dispose_disposed.
Qed.


(** C3 (amended): a capability [name] that both stores have as a function,
    and under which [CacheStore] has nothing itself (no field, no method
    and no inherited member such as [toString]), is forwarded to the cache
    store first, with the arguments as they are.  When that call returns a
    plain value, or a promise that is fulfilled, the fallback store's
    function is called next with the same arguments, and the result of the
    forwarded call is the fallback store's result (as a promise, if the
    cache store returned a promise).  When the cache store's call throws,
    or its promise is rejected or never settles, the fallback store is not
    called. *)
Theorem proxy_on_both (name : string)
  (f : list jsvalue → C → C * completion) (g : list jsvalue → F → F * completion)
  (args : list jsvalue) (this : @t C F) :
  extra (S := C) name = Some f → extra (S := F) name = Some g →
  defined name this = false →
  ∃ m, proxy name this = Some m ∧
    let c := f args (cacheStore (env this)) in
    let fb := g args (fallbackStore (env this)) in
    let after := fst (m args this) in
    cacheStore (env after) = fst c ∧
    match snd c with
    | Return _ =>
        trace (env after) = trace (env this) ++ [Issued Cache (Extra name args);
                                                 Issued Fallback (Extra name args)] ∧
        fallbackStore (env after) = fst fb ∧
        snd (m args this) = snd fb
    | Async (Fulfilled _) =>
        trace (env after) = trace (env this) ++ [Issued Cache (Extra name args);
                                                 Issued Fallback (Extra name args)] ∧
        fallbackStore (env after) = fst fb ∧
        snd (m args this) = Async (settle (snd fb))
    | _ =>
        trace (env after) = trace (env this) ++ [Issued Cache (Extra name args)] ∧
        fallbackStore (env after) = fallbackStore (env this) ∧
        snd (m args this) = snd c
    end.
Proof.
  intros Hf Hg Hdef. unfold proxy. rewrite Hdef, Hf. eexists. split; [done|].
  unfold cache_proxy, with_env, thenSync, on_cache, on_fallback. cbv zeta.
  cbn [fst snd]. rewrite Hg.
  destruct (snd (f args (cacheStore (env this)))) as [v|e|[v|e|]];
    cbn [fst snd env cacheStore fallbackStore trace]; rewrite <- ?app_assoc; done.
Qed.

(** *** The tracker between operations *)

Lemma observed_nonneg sourceStream : 0 ≤ observed sourceStream.
Proof.
  unfold observed.
  assert (∀ l acc, 0 ≤ acc →
            0 ≤ fold_left (λ size (data : Buffer), size + Z.of_nat (List.length data)) l acc)
    as Hfold.
  { induction l as [|d l IH]; simpl; intros acc Hacc; [done|]. apply IH. lia. }
  by apply Hfold.
Qed.

Lemma ensure_tracker key sourceStream (this : @t C F) :
  lru (fst (ensure key sourceStream this)) = lru this ∨
  ∃ w : @Env C F, lru (fst (ensure key sourceStream this))
       = fst (fst (LRU.set dispose key (Some (observed sourceStream)) (lru this, w))).
Proof.
  unfold ensure. cbv zeta. destruct (join _ _); cbn [fst lru]; [|by left..].
  right. eexists. reflexivity.
Qed.

Lemma stream_tracker key (this : @t C F) :
  lru (fst (fst (stream key this))) = fst (LRU.get key (lru this)) ∨
  lru (fst (fst (stream key this)))
    = fst (LRU.get key (fst (LRU.get key (lru this)))).
Proof.
  unfold stream. cbv zeta. destruct (nonzero _); [by left|].
  destruct (join _ _); cbn [fst lru]; eauto.
Qed.

Lemma move_tracker source dest (this : @t C F) :
  (lru (fst (move source dest this)) = lru this ∧
   ∀ both, snd (move source dest this) ≠ Fulfilled both) ∨
  ∃ (w : @Env C F) both, snd (move source dest this) = Fulfilled both ∧
    lru (fst (move source dest this))
    = fst (fst (LRU.set dispose dest (snd (LRU.get source (lru this)))
                  (LRU.del dispose source (fst (LRU.get source (lru this)), w)))).
Proof.
  unfold move. cbv zeta. destruct (join _ _); cbn [fst snd lru]; [|by left..].
  right. do 2 eexists. split; reflexivity.
Qed.

Lemma del_pair {W : Type} (d : string → number → W → W) k (c : LRU.t * W) :
  LRU.del d k c = (fst (LRU.del d k (fst c, snd c)), snd (LRU.del d k c)).
Proof. by destruct c, (LRU.del d k _). Qed.

Lemma step_invariant op (this : @t C F) :
  LRU.invariant (lru this) →
  LRU.invariant (lru (step op this)) ∧
  LRU.MAX (lru (step op this)) = LRU.MAX (lru this).
Proof.
  intros Hinv. destruct op as [key src|key|source dest|key]; simpl.
  - destruct (ensure_tracker key src this) as [->|[w ->]]; [done|].
    destruct (set_spec dispose key (Some (observed src)) (lru this) w Hinv)
      as (Hi & Hm & _).
    { intros n [= <-]. apply observed_nonneg. }
    done.
  - pose proof (get_invariant key _ Hinv) as Hg.
    pose proof (get_fields key (lru this)) as [Hm _].
    destruct (stream_tracker key this) as [->| ->]; [done|].
    split; [by apply get_invariant|].
    by rewrite (proj1 (get_fields key _)).
  - destruct (move_tracker source dest this) as [[-> _]|(w & both & _ & ->)]; [done|].
    pose proof (get_invariant source _ Hinv) as Hg.
    pose proof (get_fields source (lru this)) as [Hm _].
    rewrite del_pair. cbn [fst snd].
    pose proof (del_invariant dispose source _ w Hg) as Hd.
    pose proof (del_fields dispose source (fst (LRU.get source (lru this))) w) as [Hdm _].
    destruct (set_spec dispose dest (snd (LRU.get source (lru this))) _
                (snd (LRU.del dispose source (fst (LRU.get source (lru this)), w))) Hd)
      as (Hi & Hsm & _).
    { intros n Hn. by apply (get_value_ok source (lru this)). }
    split; [done|]. congruence.
  - done.
Qed.

Lemma step_bounded L op (this : @t C F) :
  LRU.bounded L (lru this) →
  match op with
  | DoMove source _ => LRU.has source (lru this) = true
  | _ => True
  end →
  LRU.bounded L (lru (step op this)).
Proof.
  intros (Hinv & Hmax & Hnum) Hop.
  destruct (step_invariant op this Hinv) as [Hi Hm].
  split; [done|]. split; [congruence|]. clear Hi Hm.
  destruct op as [key src|key|source dest|key]; simpl.
  - destruct (ensure_tracker key src this) as [->|[w ->]]; [done|].
    destruct (set_spec dispose key (Some (observed src)) (lru this) w Hinv)
      as (_ & _ & Hn & _).
    { intros n [= <-]. apply observed_nonneg. }
    by apply Hn.
  - destruct (stream_tracker key this) as [->| ->];
      by rewrite ?(proj2 (get_fields key _)).
  - destruct (move_tracker source dest this) as [[-> _]|(w & both & _ & ->)]; [done|].
    pose proof (get_invariant source _ Hinv) as Hg.
    pose proof (get_fields source (lru this)) as [_ Hl].
    rewrite del_pair. cbn [fst snd].
    pose proof (del_invariant dispose source _ w Hg) as Hd.
    destruct (set_spec dispose dest (snd (LRU.get source (lru this))) _
                (snd (LRU.del dispose source (fst (LRU.get source (lru this)), w))) Hd)
      as (_ & _ & Hn & _).
    { intros n Hn. by apply (get_value_ok source (lru this)). }
    apply Hn; [|by apply get_value_number].
    apply del_fields.
    + by rewrite Hl.
    + intros hit Hhit. destruct Hg as [(_ & Hok & Hlen) _].
      rewrite Hl in Hlen. destruct Hnum as [t Ht].
      destruct Hlen as [Hnan|[_ Hall]]; [congruence|].
      apply node_of_Some in Hhit as [_ Hin]. apply list_elem_of_In in Hin.
      by apply (proj1 (Forall_forall _ _) Hall).
  - done.
Qed.

Lemma run_bounded L ops : ∀ (this : @t C F) n,
  LRU.bounded L (lru this) → renames_tracked ops this →
  LRU.bounded L (lru (run (take n ops) this)).
Proof.
  induction ops as [|op ops IH]; intros this n Hb Hr.
  - by rewrite take_nil.
  - destruct n as [|n]; [done|]. destruct Hr as [Hop Hr]. simpl.
    apply IH; [|done]. by apply step_bounded.
Qed.

Lemma run_invariant ops : ∀ (this : @t C F),
  LRU.invariant (lru this) → LRU.invariant (lru (run ops this)).
Proof.
  induction ops as [|op ops IH]; intros this Hinv; [done|]. simpl.
  apply IH. by apply step_invariant.
Qed.

(** C1 (amended): for a store made with a budget [L] above 0, and a run of
    writes, reads, renames and deletions in which every rename is of a key
    that the tracker holds at that point, the sizes that the tracker holds
    add up to at most [L] after each operation. *)
Theorem budget_invariant (cache : C) (fallback : F) (L : Z) (ops : list operation) :
  0 < L →
  renames_tracked ops (CacheStore cache fallback (Some L)) →
  ∀ n, LRU.tracked (lru (run (take n ops) (CacheStore cache fallback (Some L)))) ≤ L.
Proof.
  intros HL Hr n.
  assert (LRU.bounded L (lru (CacheStore cache fallback (Some L)))) as Hb.
  { split; [apply LRU_invariant|]. split; [|by eexists].
    simpl. destruct (Z.leb_spec L 0); [lia|done]. }
  destruct (run_bounded L ops _ n Hb Hr) as (Hinv & Hmax & Hnum).
  by apply invariant_budget.
Qed.

(** *** Reads *)

(** C2, what the code does at a miss: the bytes that the fallback store
    pipes out reach the destination and are handed to the cache store's
    [ensure], but the tracker is left as it was, so the key is still not
    tracked when the read is over. *)
Theorem stream_miss (key : string) (this : @t C F) :
  LRU.has key (lru this) = false →
  let piped := snd (snd (store_stream key (fallbackStore (env this)))) in
  let outcome := fst (snd (store_stream key (fallbackStore (env this)))) in
  let after := fst (fst (stream key this)) in
  snd (stream key this) = piped ∧
  trace (env after)
    = trace (env this) ++ [Issued Fallback (Stream key);
                           Issued Cache (Ensure key (passThrough piped outcome))] ∧
  lru after = lru this ∧
  LRU.has key (lru after) = false.
Proof.
  intros Hhas. cbv zeta. unfold stream. rewrite (get_absent _ _ Hhas).
  cbn [fst snd nonzero]. unfold on_fallback, on_cache. cbn [fst snd].
  destruct (join _ _); cbn [fst snd env trace lru passThrough chunks];
    rewrite <- ?app_assoc, ?(get_absent _ _ Hhas); done.
Qed.

(** C9 (amended): [unlink(key)] leaves the tracker as it is, and when the
    size tracked for the key is not 0, the next [stream(key, dest)] goes to
    the cache store only and returns what the cache store returns. *)
Theorem unlink_keeps_tracker (key : string) (this : @t C F) :
  lru (fst (unlink key this)) = lru this ∧
  ∀ n, LRU.peek key (lru this) = Some n → n ≠ 0 →
       let after := fst (unlink key this) in
       let read := stream key after in
       trace (env (fst (fst read))) = trace (env after) ++ [Issued Cache (Stream key)] ∧
       fallbackStore (env (fst (fst read))) = fallbackStore (env after) ∧
       (snd (fst read), snd read) = snd (store_stream key (cacheStore (env after))).
Proof.
  split; [done|]. intros n Hn Hn0. cbv zeta. unfold stream.
  change (lru (fst (unlink key this))) with (lru this).
  rewrite get_peek, Hn. cbn [nonzero].
  destruct (Z.eqb_spec n 0) as [|_]; [done|]. cbn [negb fst snd].
  unfold on_cache. cbn [fst snd env trace fallbackStore].
  by destruct (store_stream key _) as [c [r out]].
Qed.

(** *** Renames *)

Lemma move_in_cache_trace source dest (w : @Env C F) :
  trace (fst (move_in_cache source dest w))
    = trace w ++ Issued Cache (Exists source) ::
        (if reports (snd (store_exists source (cacheStore w)))
         then [Issued Cache (Move source dest)] else []) ∧
  fallbackStore (fst (move_in_cache source dest w)) = fallbackStore w.
Proof.
  unfold move_in_cache, on_cache. cbn [fst snd].
  destruct (snd (store_exists source (cacheStore w))) as [v|e|]; cbn [reports fst snd trace];
    [|done..].
  destruct (truthy v); cbn [fst snd trace fallbackStore]; [|done].
  by rewrite <- app_assoc.
Qed.




End CacheStoreFacts.

(** ** Scenarios on two MemoryStores *)

Section Scenarios.

Import CacheStore.

#[local] Existing Instance memoryStore.

(** The three puts of 40 bytes of the eviction test: the first key is
    evicted by the third put, and only from the cache store. *)
Example three_puts_of_forty :
  let this := run [DoEnsure "A" (blob 40); DoEnsure "B" (blob 40);
                   DoEnsure "C" (blob 40)] cachedStore in
  map LRU.key (LRU.LRU_LIST (lru this)) = ["C"; "B"] ∧
  LRU.tracked (lru this) = 80 ∧
  last (trace (env this)) = Some (Issued Cache (Unlink "A")) ∧
  MemoryStore.exists_ "A" (cacheStore (env this)) = false ∧
  MemoryStore.exists_ "A" (fallbackStore (env this)) = true.
Proof. vm_compute. repeat split. Qed.

(** C1, as worded, fails: with a budget of 0 the tracker has no bound. *)
Lemma budget_of_zero : ¬ budget_claim.
Proof.
  intros Hc.
  specialize (Hc MemoryStore.t MemoryStore.t memoryStore memoryStore
                MemoryStore.MemoryStore MemoryStore.MemoryStore 0
                [DoEnsure "a" (blob 1)]).
  vm_compute in Hc. by apply Hc.
Qed.

(** A blob larger than the budget is written and renamed (a put), then three
    blobs of 40 bytes are written: the rename registers its destination
    without a size, the total is [NaN] from then on, and nothing is evicted
    any more. *)
Lemma rename_of_untracked_key :
  let this := run [DoEnsure "tmp" (blob 150); DoMove "tmp" "big";
                   DoEnsure "A" (blob 40); DoEnsure "B" (blob 40);
                   DoEnsure "C" (blob 40)] cachedStore in
  LRU.LENGTH (lru this) = None ∧
  map LRU.key (LRU.LRU_LIST (lru this)) = ["C"; "B"; "A"; "big"] ∧
  LRU.tracked (lru this) = 120.
Proof. vm_compute. repeat split. Qed.

Lemma budget_invariant_witness :
  let ops := [DoEnsure "tmp" (blob 40); DoMove "tmp" "A"; DoEnsure "B" (blob 40);
              DoStream "A"; DoEnsure "C" (blob 40)] in
  LRU.tracked (lru (run (take 5 ops) cachedStore)) ≤ 100.
Proof.
  intros ops.
  apply (budget_invariant MemoryStore.MemoryStore MemoryStore.MemoryStore 100 ops).
  - lia.
  - vm_compute. repeat split.
Defined.

(** C2: after the first key of the eviction test is evicted, reading it
    twice goes to the fallback store twice; the first read has written the
    bytes to the cache store, but the key is not tracked. *)
Lemma stream_miss_witness :
  let this := run [DoEnsure "A" (blob 40); DoEnsure "B" (blob 40);
                   DoEnsure "C" (blob 40)] cachedStore in
  let once := fst (fst (stream "A" this)) in
  let twice := fst (fst (stream "A" once)) in
  LRU.has "A" (lru this) = false ∧
  MemoryStore.exists_ "A" (cacheStore (env once)) = true ∧
  LRU.has "A" (lru once) = false ∧
  trace (env twice)
    = trace (env once) ++
      [Issued Fallback (Stream "A");
       Issued Cache (Ensure "A" (passThrough [repeat Byte.x61 40] (Fulfilled VUndefined)))].
Proof.
  intros this once twice.
  assert (LRU.has "A" (lru this) = false) as Hmiss by reflexivity.
  destruct (stream_miss "A" this Hmiss) as (_ & _ & _ & Hstill).
  destruct (stream_miss "A" once Hstill) as (_ & Htrace & _).
  split; [exact Hmiss|]. split; [reflexivity|]. split; [exact Hstill|].
  exact Htrace.
Defined.

(** C3, as worded, fails: in the proxying test the result of the forwarded
    call is the fallback store's. *)
Lemma forwarded_result : ¬ forwarding_claim.
Proof.
  intros Hc.
  destruct (Hc MemoryStore.t MemoryStore.t
              (withMethod "onCacheAndFallback" (Return (VStr "bothCache")) memoryStore)
              (withMethod "onCacheAndFallback" (Return (VStr "bothFallback")) memoryStore)
              "onCacheAndFallback" (fun _ this => (this, Return (VStr "bothCache")))
              (fun _ this => (this, Return (VStr "bothFallback")))
              [VStr "bar"; VNum 3] cachedStore eq_refl eq_refl eq_refl)
    as (m & Hm & _ & Hret).
  vm_compute in Hm. injection Hm as <-. vm_compute in Hret. discriminate.
Qed.

Lemma proxy_on_both_witness :
  ∃ m, proxy (SC := withMethod "onCacheAndFallback" (Return (VStr "bothCache")) memoryStore)
             (SF := withMethod "onCacheAndFallback" (Return (VStr "bothFallback")) memoryStore)
             "onCacheAndFallback" cachedStore = Some m ∧
       snd (m [VStr "bar"; VNum 3] cachedStore) = Return (VStr "bothFallback") ∧
       trace (env (fst (m [VStr "bar"; VNum 3] cachedStore)))
         = [Issued Cache (Extra "onCacheAndFallback" [VStr "bar"; VNum 3]);
            Issued Fallback (Extra "onCacheAndFallback" [VStr "bar"; VNum 3])].
Proof.
  destruct (proxy_on_both
              (SC := withMethod "onCacheAndFallback" (Return (VStr "bothCache")) memoryStore)
              (SF := withMethod "onCacheAndFallback" (Return (VStr "bothFallback")) memoryStore)
              "onCacheAndFallback" (fun _ this => (this, Return (VStr "bothCache")))
              (fun _ this => (this, Return (VStr "bothFallback")))
              [VStr "bar"; VNum 3] cachedStore eq_refl eq_refl eq_refl)
    as (m & Hm & _ & Htrace & _ & Hret).
  exists m. split; [exact Hm|]. split; [exact Hret|exact Htrace].
Defined.

(** C4 as it is worded does not hold of the code: a key that [this.moves]
    maps to the empty key is unlinked from the cache store when it is
    evicted, and stays in [this.moves]. *)
Lemma moved_to_empty_key : ¬ eviction_claim.
Proof.
  intros Hc.
  destruct (Hc MemoryStore.t MemoryStore.t memoryStore memoryStore "k" (Some 1)
              {| moves := {["k" := ""]}; cacheStore := MemoryStore.MemoryStore;
                 fallbackStore := MemoryStore.MemoryStore; trace := [] |})
    as (Hpresent & _).
  destruct Hpresent as [_ Htrace]; [by eexists|]. vm_compute in Htrace. discriminate.
Qed.

(** And a key that was never renamed is not unlinked when it is a name
    that [this.moves] inherits. *)
Lemma inherited_key_kept : ¬ eviction_claim.
Proof.
  intros Hc.
  destruct (Hc MemoryStore.t MemoryStore.t memoryStore memoryStore "constructor"
              (Some 150) (env cachedStore)) as (_ & Habsent & _).
  specialize (Habsent eq_refl). vm_compute in Habsent. discriminate.
Qed.

(** The same in a run: a blob too large for the budget, written under
    [constructor], is disposed of at once, but stays in the cache store,
    where nothing tracks it. *)
Lemma oversized_constructor_stays :
  let this := run [DoEnsure "constructor" (blob 150)] cachedStore in
  LRU.has "constructor" (lru this) = false ∧
  MemoryStore.exists_ "constructor" (cacheStore (env this)) = true ∧
  trace (env this) = [Issued Fallback (Ensure "constructor" (blob 150));
                      Issued Cache (Ensure "constructor" (blob 150));
                      Forgotten "constructor"].
Proof. vm_compute. repeat split. Qed.

Lemma dispose_spec_witness :
  let w := {| moves := {["tmp" := "final"; "k" := ""]};
              cacheStore := {| MemoryStore.data := {["tmp" := MemoryStore.Buf []]} |};
              fallbackStore := MemoryStore.MemoryStore;
              trace := [] |} in
  trace (dispose "tmp" None w) = [Forgotten "tmp"] ∧
  trace (dispose "constructor" None w) = [Forgotten "constructor"] ∧
  trace (dispose "k" None w) = [Issued Cache (Unlink "k")] ∧
  moves (dispose "k" None w) = moves w ∧
  trace (dispose "old" None w) = [Issued Cache (Unlink "old")].
Proof.
  intros w.
  destruct (dispose_spec "tmp" None w) as (Hmoved & _ & _).
  destruct (dispose_spec "constructor" None w) as (Hinherited & _ & _).
  destruct (dispose_spec "k" None w) as (_ & Hempty & _).
  destruct (dispose_spec "old" None w) as (_ & Hgone & _).
  split; [|split; [|split; [|split]]].
  - apply Hmoved. left. exists "final". split; [reflexivity|discriminate].
  - apply Hinherited. right. split; [reflexivity|].
    apply (bool_decide_unpack _). vm_compute. exact I.
  - apply Hempty. left. reflexivity.
  - apply Hempty. left. reflexivity.
  - apply Hgone. right. split; [reflexivity|].
    apply (bool_decide_unpack _). vm_compute. exact I.
Defined.




(** C9, as worded, fails: an empty blob is tracked with size 0, and a read
    of it goes to the fallback store. *)
Lemma empty_blob_misses : ¬ hit_after_unlink_claim.
Proof.
  intros Hc.
  destruct (Hc MemoryStore.t MemoryStore.t memoryStore memoryStore
              MemoryStore.MemoryStore MemoryStore.MemoryStore 100
              [DoEnsure "e" {| chunks := []; finish := Ended |}] "e" eq_refl)
    as (_ & _ & Htrace).
  vm_compute in Htrace. discriminate.
Qed.

Lemma unlink_keeps_tracker_witness :
  let this := run [DoEnsure "k" (blob 3)] cachedStore in
  let after := fst (unlink "k" this) in
  lru after = lru this ∧
  trace (env (fst (fst (stream "k" after))))
    = trace (env after) ++ [Issued Cache (Stream "k")].
Proof.
  intros this after.
  destruct (unlink_keeps_tracker "k" this) as [Hsame Hhit].
  split; [exact Hsame|].
  destruct (Hhit 3 eq_refl) as (Htrace & _); [discriminate|exact Htrace].
Defined.

End Scenarios.

(** ** The facade *)

Section FacadeFacts.

Import Cafs.

Context {S : Type} {store_of : CacheStore.Store S} {contract : Contract S}.
Context {Meta : Type} (digest : Buffer → string) (mapKey : option string → Meta → string).

Lemma put_stores (source : Buffer) (meta : Meta) (store : S) :
  ∃ store',
    put digest mapKey source meta store
      = (store', Fulfilled {| key := mapKey (Some (digest source)) meta;
                              hash := Some (digest source);
                              size := Some (Z.of_nat (List.length source));
                              meta := meta |}) ∧
    content store' (mapKey (Some (digest source)) meta) = Some source.
Proof.
  unfold put, preparePut.
  destruct (write_by_key (mapKey None meta) source store) as (s1 & v & Hw & Hc).
  rewrite Hw. cbn [fst snd]. unfold finalizePut. cbn [Cafs.hash Cafs.meta Cafs.key].
  destruct (rename_key (mapKey None meta) (mapKey (Some (digest source)) meta)
              source s1 Hc) as (s2 & v' & Hm & Hc').
  rewrite Hm. cbn [fst snd]. by exists s2.
Qed.

Lemma readFile_reads (info : @BlobInfo Meta) (b : Buffer) (store : S) :
  content store (key info) = Some b → snd (readFile info store) = Fulfilled b.
Proof.
  intros Hc. unfold readFile.
  destruct (read_by_key (key info) b store Hc) as (s' & v & piped & Hs & Hp).
  rewrite Hs. cbn [fst snd]. by rewrite Hp.
Qed.

(** C8: on a store that keeps the contract, putting the same bytes twice
    gives two infos with the same hash and the same key, and reading either
    of them, after the first put or after the second, gives the bytes
    back. *)
Theorem put_twice (source : Buffer) (meta : Meta) (store : S) :
  ∃ store1 store2 info1 info2,
    put digest mapKey source meta store = (store1, Fulfilled info1) ∧
    put digest mapKey source meta store1 = (store2, Fulfilled info2) ∧
    hash info1 = hash info2 ∧
    key info1 = key info2 ∧
    snd (readFile info1 store1) = Fulfilled source ∧
    snd (readFile info1 store2) = Fulfilled source ∧
    snd (readFile info2 store2) = Fulfilled source.
Proof.
  destruct (put_stores source meta store) as (store1 & Hput1 & Hc1).
  destruct (put_stores source meta store1) as (store2 & Hput2 & Hc2).
  eexists store1, store2, _, _. split; [exact Hput1|]. split; [exact Hput2|].
  do 2 (split; [done|]). repeat split; by apply readFile_reads.
Qed.

End FacadeFacts.

(** The store of the contract table keeps the contract. *)
Lemma tableStore_contract : @Cafs.Contract (gmap string Buffer) Cafs.tableStore.
Proof.
  refine {| Cafs.content := fun store key => store !! key |}.
  - intros key b store. simpl. eexists _, _. split; [done|].
    rewrite app_nil_r. apply lookup_insert_eq.
  - intros key b store Hb. simpl. rewrite Hb. eexists _, _, _. split; [done|].
    simpl. apply app_nil_r.
  - intros source dest b store Hb. simpl. rewrite Hb. eexists _, _. split; [done|].
    apply lookup_insert_eq.
Defined.

Lemma put_twice_witness :
  let digest := String.string_of_list_byte in
  let mapKey := fun (hash : option string) (_ : unit) => default "tmp" hash in
  ∃ store1 store2 info1 info2,
    Cafs.put (store_of := Cafs.tableStore) digest mapKey [Byte.x68; Byte.x69] tt ∅
      = (store1, Fulfilled info1) ∧
    Cafs.put (store_of := Cafs.tableStore) digest mapKey [Byte.x68; Byte.x69] tt store1
      = (store2, Fulfilled info2) ∧
    Cafs.hash info1 = Cafs.hash info2 ∧
    Cafs.key info1 = Cafs.key info2 ∧
    snd (Cafs.readFile (store_of := Cafs.tableStore) info1 store1) = Fulfilled [Byte.x68; Byte.x69] ∧
    snd (Cafs.readFile (store_of := Cafs.tableStore) info1 store2) = Fulfilled [Byte.x68; Byte.x69] ∧
    snd (Cafs.readFile (store_of := Cafs.tableStore) info2 store2) = Fulfilled [Byte.x68; Byte.x69].
Proof.
  intros digest mapKey.
  exact (put_twice (contract := tableStore_contract) digest mapKey
           [Byte.x68; Byte.x69] tt ∅).
Defined.

(** * Further properties of the stores *)

(** ** MemoryStore: writes, reads and renames together *)

Section MemoryStoreMore.

Import MemoryStore.

Lemma chunkSize_pos : (0 < chunkSize)%nat.
Proof. unfold chunkSize. lia. Qed.

Lemma chunked__spec fuel : ∀ b : Buffer,
  (List.length b ≤ fuel)%nat →
  concat (chunked_ fuel b) = b ∧
  Forall (λ chunk : Buffer, (0 < List.length chunk ≤ chunkSize)%nat) (chunked_ fuel b).
Proof.
  induction fuel as [|fuel IH]; intros b Hb.
  - destruct b; [done|]. simpl in Hb. lia.
  - destruct b as [|x b']; [done|].
    change (chunked_ (S fuel) (x :: b'))
      with (take chunkSize (x :: b') :: chunked_ fuel (drop chunkSize (x :: b'))).
    pose proof chunkSize_pos as Hpos.
    destruct (IH (drop chunkSize (x :: b'))) as [Hcat Hall].
    { rewrite length_drop. simpl in *. lia. }
    split.
    + cbn [concat]. rewrite Hcat. apply take_drop.
    + constructor; [|done]. rewrite length_take. simpl List.length. lia.
Qed.

(** The chunks piped for a buffer are its bytes, in order, and each has at
    least one byte and at most [chunkSize]. *)
Lemma chunked_spec (b : Buffer) :
  concat (chunked b) = b ∧
  Forall (λ chunk : Buffer, (0 < List.length chunk ≤ chunkSize)%nat) (chunked b).
Proof. by apply chunked__spec. Qed.

(** X1: for a key that is ordinary, a stream that ends after at least one
    byte is kept whole: [ensure] is fulfilled, the key then exists,
    [stream] pipes exactly the bytes that were written, in chunks of at
    most [chunkSize] bytes (and leaves the store as it is), and no other
    key has changed. *)
Theorem ensure_then_stream (key : string) (sourceStream : Readable) (this : t) :
  ordinary key →
  finish sourceStream = Ended →
  concat (chunks sourceStream) ≠ [] →
  let after := fst (ensure key sourceStream this) in
  snd (ensure key sourceStream this) = Async (Fulfilled VUndefined) ∧
  exists_ key after = true ∧
  fst (stream key after) = (after, Async (Fulfilled VUndefined)) ∧
  concat (snd (stream key after)) = concat (chunks sourceStream) ∧
  Forall (λ chunk : Buffer, (0 < List.length chunk ≤ chunkSize)%nat)
         (snd (stream key after)) ∧
  ∀ other, other ≠ key → data after !! other = data this !! other.
Proof.
  intros _ Hend Hbytes. cbv zeta. unfold ensure. rewrite Hend. cbn [fst snd].
  assert (getContents (chunks sourceStream) = Buf (concat (chunks sourceStream))) as Hc.
  { unfold getContents. destruct (concat (chunks sourceStream)); [done|reflexivity]. }
  rewrite Hc. split; [done|]. split; [|split; [|split; [|split]]].
  - unfold exists_. cbn [data]. by rewrite lookup_insert_eq.
  - unfold stream. cbn [data]. by rewrite lookup_insert_eq.
  - unfold stream. cbn [data]. rewrite lookup_insert_eq. cbn [snd].
    apply chunked_spec.
  - unfold stream. cbn [data]. rewrite lookup_insert_eq. cbn [snd].
    apply chunked_spec.
  - intros other Hne. cbn [data]. by rewrite lookup_insert_ne.
Qed.

Lemma ensure_then_stream_witness :
  let this := {| data := {["old" := Buf [Byte.x6f]]} |} in
  let source := {| chunks := [[Byte.x68]; []; [Byte.x69]]; finish := Ended |} in
  concat (snd (stream "old" (fst (ensure "old" source this)))) = [Byte.x68; Byte.x69].
Proof.
  intros this source.
  destruct (ensure_then_stream "old" source this) as (_ & _ & _ & Hread & _);
    [by_key|reflexivity|discriminate|exact Hread].
Defined.

(** X2: for a key that is ordinary, a stream that ends without a byte is
    accepted, but what is kept under the key is not a buffer: whatever the
    key held before, it does not exist afterwards, and reading it or
    renaming it is rejected. *)
Theorem ensure_without_data (key dest : string) (sourceStream : Readable) (this : t) :
  ordinary key →
  finish sourceStream = Ended →
  concat (chunks sourceStream) = [] →
  snd (ensure key sourceStream this) = Async (Fulfilled VUndefined) ∧
  exists_ key (fst (ensure key sourceStream this)) = false ∧
  snd (fst (stream key (fst (ensure key sourceStream this))))
    = Async (Rejected (missing key)) ∧
  snd (move key dest (fst (ensure key sourceStream this)))
    = Async (Rejected (missing key)).
Proof.
  intros _ Hend Hbytes. unfold ensure. rewrite Hend. cbn [fst snd].
  unfold getContents. rewrite Hbytes. cbn [List.length Nat.eqb].
  unfold exists_, stream, move. cbn [data]. by rewrite lookup_insert_eq.
Qed.

Lemma ensure_without_data_witness :
  let this := {| data := {["k" := Buf [Byte.x6f]]} |} in
  let source := {| chunks := [[]; []]; finish := Ended |} in
  exists_ "k" this = true ∧
  exists_ "k" (fst (ensure "k" source this)) = false.
Proof.
  intros this source.
  destruct (ensure_without_data "k" "d" source this) as (_ & Hgone & _);
    [by_key|reflexivity|reflexivity|].
  split; [reflexivity|exact Hgone].
Defined.

(** X3: [exists] tells what [stream] and [move] will do: a key exists
    exactly when reading it is fulfilled, and exactly when renaming it is
    fulfilled; a read never changes the store. *)
Theorem exists_iff_readable (key dest : string) (this : t) :
  (exists_ key this = true ↔
   snd (fst (stream key this)) = Async (Fulfilled VUndefined)) ∧
  (exists_ key this = true ↔
   snd (move key dest this) = Async (Fulfilled VUndefined)) ∧
  fst (fst (stream key this)) = this.
Proof.
  unfold exists_, stream, move, falsy.
  destruct (data this !! key) as [[b|]|]; cbn [fst snd negb]; repeat split; done.
Qed.

(** X4: once a key that is ordinary is unlinked it does not exist, reading
    it is rejected, renaming it is rejected, and unlinking it again changes
    nothing. *)
Theorem unlink_then_absent (key dest : string) (this : t) :
  ordinary key →
  exists_ key (fst (unlink key this)) = false ∧
  snd (fst (stream key (fst (unlink key this)))) = Async (Rejected (missing key)) ∧
  move key dest (fst (unlink key this))
    = (fst (unlink key this), Async (Rejected (missing key))) ∧
  fst (unlink key (fst (unlink key this))) = fst (unlink key this).
Proof.
  intros _. unfold unlink, exists_, stream, move. cbn [fst snd data].
  rewrite lookup_delete_eq. cbn [falsy]. repeat split. f_equal.
  apply delete_id, lookup_delete_eq.
Qed.

Lemma unlink_then_absent_witness :
  let this := {| data := {["k" := Buf [Byte.x68]]} |} in
  exists_ "k" this = true ∧
  exists_ "k" (fst (unlink "k" this)) = false ∧
  snd (move "k" "d" (fst (unlink "k" this))) = Async (Rejected (missing "k")).
Proof.
  intros this.
  destruct (unlink_then_absent "k" "d" this) as (Hgone & _ & Hmove & _); [by_key|].
  split; [reflexivity|]. split; [exact Hgone|]. by rewrite Hmove.
Defined.

(** X5: for keys that are ordinary, renaming a key to a name that is free
    and then back gives the store that one started from. *)
Theorem move_there_and_back (a b : string) (this : t) :
  ordinary a → ordinary b →
  a ≠ b → exists_ a this = true → data this !! b = None →
  snd (move a b this) = Async (Fulfilled VUndefined) ∧
  move b a (fst (move a b this)) = (this, Async (Fulfilled VUndefined)).
Proof.
  intros _ _ Hne Ha Hb. unfold exists_, falsy in Ha. unfold move.
  destruct (data this !! a) as [[c|]|] eqn:Hc; try done. cbn [falsy fst snd data].
  split; [done|]. rewrite lookup_insert_eq. cbn [falsy]. f_equal.
  destruct this as [d]. cbn [data] in *. f_equal. apply map_eq. intros k.
  destruct (decide (k = a)) as [->|Hka]; [by rewrite lookup_insert_eq|].
  rewrite lookup_insert_ne by done.
  destruct (decide (k = b)) as [->|Hkb]; [by rewrite lookup_delete_eq|].
  by rewrite lookup_delete_ne, lookup_insert_ne, lookup_delete_ne.
Qed.

Lemma move_there_and_back_witness :
  let this := {| data := {["a" := Buf [Byte.x68]; "c" := Buf []]} |} in
  move "b" "a" (fst (move "a" "b" this)) = (this, Async (Fulfilled VUndefined)).
Proof.
  intros this.
  destruct (move_there_and_back "a" "b" this) as [_ Hback];
    [by_key|by_key|discriminate|reflexivity|reflexivity|exact Hback].
Defined.

End MemoryStoreMore.

(** ** The tracker: which entries are disposed of *)

Section TrackerEvictions.

Import LRU.

Context {W : Type} (dispose : string → number → W → W).

Lemma head_alone_fits e self :
  consistent self → LRU_LIST self = [e] →
  exceeds (LENGTH self) (MAX self) = false.
Proof.
  intros (_ & Hok & Hlen) Hl. rewrite Hl in Hok, Hlen.
  apply Forall_cons in Hok as [(_ & Hfit & _) _].
  destruct Hlen as [Hnan|[Hsum Hnum]]; [by rewrite Hnan|].
  apply Forall_cons in Hnum as [[n Hn] _].
  unfold tracked in Hsum. rewrite Hl in Hsum. simpl in Hsum.
  rewrite Hsum, Hn. rewrite Hn in Hfit. simpl in *.
  by replace (n + 0)%Z with n by lia.
Qed.

(** A value that fits the bound: [set] puts its entry at the head of a
    list that has no other entry for the key, and trims. *)
Lemma set_fits_shape k v self w :
  invariant self → (∀ n, v = Some n → (0 ≤ n)%Z) →
  exceeds v (MAX self) = false →
  ∃ self2 rest,
    set dispose k v (self, w) = (trim dispose (self2, w), true) ∧
    consistent self2 ∧
    LRU_LIST self2 = {| key := k; value := v; length := v |} :: rest ∧
    (LENGTH self = None ∨ v = None → LENGTH self2 = None) ∧
    (∀ k', k' ∈ map key rest ↔ k' ∈ map key (LRU_LIST self) ∧ k' ≠ k).
Proof.
  intros [Hc Hb] Hv Hex. pose proof Hc as (Hnd & Hok & Hlen).
  unfold set, lengthCalculator. cbv zeta. cbn [fst snd].
  destruct (node_of k (LRU_LIST self)) as [item|] eqn:Hf.
  - pose proof (node_of_Some _ _ _ Hf) as [Hk Hin]. rewrite Hex.
    set (item' := {| key := key item; value := v; length := v |}).
    set (self1 := {| MAX := MAX self;
                     LENGTH := plus (LENGTH self) (minus v (length item));
                     LRU_LIST := updateNode k v v (LRU_LIST self) |}).
    assert (Hf1 : node_of k (LRU_LIST self1) = Some item')
      by by apply updateNode_node_of.
    assert (Hc1 : consistent self1).
    { unfold consistent, tracked. simpl. rewrite updateNode_keys.
      split; [done|]. split.
      - apply updateNode_Forall; [done|]. intros e _.
        repeat split; try done; simpl; intros n Hn; by apply Hv.
      - apply list_elem_of_In in Hin.
        destruct Hlen as [Hnan|[Hsum Hnum]]; [left; by rewrite Hnan|].
        destruct (proj1 (Forall_forall _ _) Hnum _ Hin) as [m Hm].
        destruct v as [n|]; [right|left; by rewrite Hsum].
        split.
        + rewrite Hsum, Hm. unfold tracked. simpl. f_equal.
          rewrite (updateNode_total _ _ _ _ _ Hf), Hm. simpl. lia.
        + apply updateNode_Forall; [done|]. intros e _. by eexists. }
    exists {| MAX := MAX self; LENGTH := LENGTH self1;
              LRU_LIST := item' :: removeNode k (LRU_LIST self1) |},
           (removeNode k (LRU_LIST self1)).
    split; [|split; [|split; [|split]]].
    + unfold get, get_. rewrite Hf1. unfold unshiftNode. cbn [fst key item'].
      by rewrite Hk.
    + pose proof (unshiftNode_consistent k self1 item' Hf1 Hc1) as Hc2.
      unfold unshiftNode in Hc2. cbn [key item'] in Hc2. by rewrite Hk in Hc2.
    + cbn [LRU_LIST]. unfold item'. by rewrite Hk.
    + cbn [LENGTH self1]. intros [-> | ->]; [done|]. by destruct (LENGTH self).
    + intros k'. cbn [LRU_LIST self1]. rewrite removeNode_keys.
      * by rewrite updateNode_keys.
      * by rewrite updateNode_keys.
  - change (length {| key := k; value := v; length := v |}) with v. rewrite Hex.
    exists {| MAX := MAX self; LENGTH := plus (LENGTH self) v;
              LRU_LIST := {| key := k; value := v; length := v |} :: LRU_LIST self |},
           (LRU_LIST self).
    split; [done|]. split; [|split; [done|split]].
    + unfold consistent, tracked. simpl. split; [|split].
      * apply NoDup_cons. split; [by apply node_of_None|done].
      * constructor; [|done].
        repeat split; try done; simpl; intros n Hn; by apply Hv.
      * destruct Hlen as [Hnan|[Hsum Hnum]]; [left; by rewrite Hnan|].
        destruct v as [n|]; [right|left; by rewrite Hsum].
        split.
        -- rewrite Hsum. unfold tracked. simpl. f_equal. lia.
        -- constructor; [by eexists|done].
    + cbn [LENGTH]. intros [-> | ->]; [done|]. by destruct (LENGTH self).
    + intros k'. split; [|tauto]. intros Hin. split; [done|]. intros ->.
      by apply node_of_None in Hf.
Qed.

(** Whatever the disposal of every key but the one at the head respects,
    trimming respects. *)
Section RespectsTail.

Context (R : W → W → Prop) (P : string → Prop).
Hypothesis R_refl : ∀ w, R w w.
Hypothesis R_trans : ∀ a b c, R a b → R b c → R a c.
Hypothesis R_dispose : ∀ k v w, P k → R w (dispose k v w).

Lemma trim_walk_respects_tail ws : ∀ e self w,
  consistent self → LRU_LIST self = e :: rev ws →
  Forall (λ hit, P (key hit)) ws →
  R w (snd (trim_walk dispose (ws ++ [e]) (self, w))).
Proof.
  induction ws as [|w0 ws IH]; intros e self w Hc Hl HP.
  - simpl. by rewrite (head_alone_fits e self Hc Hl).
  - change (trim_walk dispose ((w0 :: ws) ++ [e]) (self, w))
      with (if exceeds (LENGTH self) (MAX self)
            then trim_walk dispose (ws ++ [e]) (del_ dispose (Some w0) (self, w))
            else (self, w)).
    simpl in Hl. apply Forall_cons in HP as [HP0 HP].
    destruct (exceeds (LENGTH self) (MAX self)); [|done].
    assert (Hnd : NoDup (map key ((e :: rev ws) ++ [w0]))).
    { destruct Hc as (Hnd & _). by rewrite Hl in Hnd. }
    assert (Hf : node_of (key w0) (LRU_LIST self) = Some w0).
    { rewrite Hl. by apply (node_of_last (e :: rev ws)). }
    destruct (del_node_consistent dispose _ self w0 w Hf Hc) as [Hc' _].
    assert (Hl' : LRU_LIST (fst (del_ dispose (Some w0) (self, w))) = e :: rev ws).
    { simpl. rewrite Hl. by apply (removeNode_last (e :: rev ws)). }
    destruct (del_ dispose (Some w0) (self, w)) as [self' w'] eqn:Hd.
    cbn [fst snd] in *.
    apply (R_trans _ w'); [|by apply IH].
    injection Hd as _ <-. by apply R_dispose.
Qed.

Lemma trim_respects_tail e rest self w :
  consistent self → LRU_LIST self = e :: rest →
  Forall (λ hit, P (key hit)) rest →
  R w (snd (trim dispose (self, w))).
Proof.
  intros Hc Hl HP. unfold trim. cbn [fst snd].
  destruct (exceeds (LENGTH self) (MAX self)); [|done].
  rewrite Hl. simpl. apply trim_walk_respects_tail; [done| |].
  - by rewrite rev_involutive.
  - by apply Forall_rev.
Qed.

(** [set] of a value that fits disposes of other keys only, and only of
    keys that were tracked. *)
Lemma set_fits_respects k v self w :
  invariant self → (∀ n, v = Some n → (0 ≤ n)%Z) →
  exceeds v (MAX self) = false →
  (∀ k', k' ∈ map key (LRU_LIST self) → k' ≠ k → P k') →
  R w (snd (fst (set dispose k v (self, w)))).
Proof.
  intros Hinv Hv Hex HP.
  destruct (set_fits_shape k v self w Hinv Hv Hex)
    as (self2 & rest & -> & Hc2 & Hl2 & _ & Hkeys).
  cbn [fst]. eapply trim_respects_tail; [exact Hc2|exact Hl2|].
  apply Forall_forall. intros x Hx.
  assert (key x ∈ map key rest) as Hm.
  { apply list_elem_of_In, in_map. by apply list_elem_of_In. }
  apply Hkeys in Hm as [Hin Hne]. by apply HP.
Qed.

End RespectsTail.

(** Once the total is [NaN] it stays so, and nothing is trimmed. *)
Lemma trim_nan self w : LENGTH self = None → trim dispose (self, w) = (self, w).
Proof. intros Hn. unfold trim. cbn [fst]. by rewrite Hn. Qed.

Lemma del_nan k self w :
  LENGTH self = None → LENGTH (fst (del dispose k (self, w))) = None.
Proof.
  intros Hn. unfold del, del_. cbn [fst snd].
  destruct (node_of k (LRU_LIST self)); cbn [fst LENGTH]; by rewrite Hn.
Qed.

Lemma set_nan k v self w :
  LENGTH self = None ∨ v = None →
  LENGTH (fst (fst (set dispose k v (self, w)))) = None.
Proof.
  intros Hn. unfold set, lengthCalculator. cbv zeta. cbn [fst snd].
  destruct (node_of k (LRU_LIST self)) as [item|] eqn:Hf.
  - destruct (exceeds v (MAX self)) eqn:Hex.
    + destruct Hn as [Hn | ->]; [|done]. cbn [fst del_ LENGTH]. by rewrite Hn.
    + cbn [fst].
      assert (plus (LENGTH self) (minus v (length item)) = None) as Hnone.
      { destruct Hn as [-> | ->]; [done|]. by destruct (LENGTH self). }
      rewrite trim_nan; [|by rewrite (proj2 (get_fields _ _))].
      cbn [fst]. by rewrite (proj2 (get_fields _ _)).
  - change (length {| key := k; value := v; length := v |}) with v.
    destruct (exceeds v (MAX self)) eqn:Hex.
    + destruct Hn as [Hn | ->]; [|done]. by cbn [fst].
    + cbn [fst].
      assert (plus (LENGTH self) v = None) as Hnone.
      { destruct Hn as [-> | ->]; [done|]. by destruct (LENGTH self). }
      by rewrite trim_nan.
Qed.

End TrackerEvictions.

(** ** CacheStore: writes, reads, renames and proxies *)

Section CacheStoreMore.

Import CacheStore.

Context {C F : Type} {SC : Store C} {SF : Store F}.

Lemma on_cache_fields {A : Type} what (f : C → C * A) (w : @Env C F) :
  moves (fst (on_cache what f w)) = moves w ∧
  fallbackStore (fst (on_cache what f w)) = fallbackStore w ∧
  trace (fst (on_cache what f w)) = trace w ++ [Issued Cache what].
Proof. done. Qed.

Lemma on_fallback_fields {A : Type} what (f : F → F * A) (w : @Env C F) :
  moves (fst (on_fallback what f w)) = moves w ∧
  cacheStore (fst (on_fallback what f w)) = cacheStore w ∧
  trace (fst (on_fallback what f w)) = trace w ++ [Issued Fallback what].
Proof. done. Qed.

Lemma observed_bytes sourceStream :
  observed sourceStream = Z.of_nat (List.length (concat (chunks sourceStream))).
Proof.
  unfold observed.
  assert (∀ l acc,
            fold_left (λ size (data : Buffer), size + Z.of_nat (List.length data)) l acc
            = acc + Z.of_nat (List.length (concat l))) as Hfold.
  { induction l as [|d l IH]; simpl; intros acc; [lia|].
    rewrite IH, length_app. lia. }
  by rewrite Hfold.
Qed.

Lemma get_keeps k k' self :
  LRU.node_of k' (LRU.LRU_LIST (fst (LRU.get k self)))
    = LRU.node_of k' (LRU.LRU_LIST self) ∧
  LRU.tracked (fst (LRU.get k self)) = LRU.tracked self.
Proof.
  unfold LRU.get, LRU.get_, LRU.tracked.
  destruct (LRU.node_of k (LRU.LRU_LIST self)) as [hit|] eqn:Hf; cbn [fst]; [|done].
  pose proof (node_of_Some _ _ _ Hf) as [Hk _].
  unfold LRU.unshiftNode. cbn [LRU.LRU_LIST]. rewrite Hk. split.
  - unfold LRU.node_of at 1. simpl. rewrite Hk.
    destruct (String.eqb_spec k k') as [<-|Hne]; [by rewrite Hf|].
    by apply node_of_removeNode_ne.
  - simpl. by rewrite (removeNode_total _ _ _ Hf).
Qed.

(** X6: a write is fulfilled (with [null]) exactly when both stores fulfil
    theirs; when it is not, both stores have still been called, the
    fallback store first, and neither the tracker nor [this.moves] has
    changed. *)
Theorem ensure_outcome (key : string) (sourceStream : Readable) (this : @t C F) :
  (snd (ensure key sourceStream this) = Fulfilled VNull ↔
   ∃ a b, snd (store_ensure key sourceStream (fallbackStore (env this))) = Fulfilled a ∧
          snd (store_ensure key sourceStream (cacheStore (env this))) = Fulfilled b) ∧
  ((∀ v, snd (ensure key sourceStream this) ≠ Fulfilled v) →
   lru (fst (ensure key sourceStream this)) = lru this ∧
   moves (env (fst (ensure key sourceStream this))) = moves (env this) ∧
   trace (env (fst (ensure key sourceStream this)))
     = trace (env this) ++ [Issued Fallback (Ensure key sourceStream);
                            Issued Cache (Ensure key sourceStream)]).
Proof.
  unfold ensure, on_fallback, on_cache. cbv zeta. cbn [fst snd cacheStore].
  destruct (snd (store_ensure key sourceStream (fallbackStore (env this)))) as [a|e|];
    destruct (snd (store_ensure key sourceStream (cacheStore (env this)))) as [b|e'|];
    cbn [join fst snd lru env moves trace]; rewrite <- ?app_assoc;
    (split; [split; [try done; by eauto | by intros (? & ? & ? & ?)]|]);
    try done.
  intros Hno. by destruct (Hno VNull).
Qed.

(** X7: a read never changes which keys are tracked, what sizes they are
    tracked with, or the sum of the sizes: a read neither registers nor
    evicts. *)
Theorem stream_keeps_tracked (key other : string) (this : @t C F) :
  LRU.has other (lru (fst (fst (stream key this)))) = LRU.has other (lru this) ∧
  LRU.peek other (lru (fst (fst (stream key this)))) = LRU.peek other (lru this) ∧
  LRU.tracked (lru (fst (fst (stream key this)))) = LRU.tracked (lru this).
Proof.
  assert (∀ self, LRU.has other (fst (LRU.get key self)) = LRU.has other self ∧
                  LRU.peek other (fst (LRU.get key self)) = LRU.peek other self ∧
                  LRU.tracked (fst (LRU.get key self)) = LRU.tracked self) as Hget.
  { intros self. destruct (get_keeps key other self) as [Hn Ht].
    unfold LRU.has, LRU.peek, LRU.get_. rewrite Hn, Ht.
    by destruct (LRU.node_of other (LRU.LRU_LIST self)). }
  destruct (stream_tracker key this) as [-> | ->]; [apply Hget|].
  destruct (Hget (fst (LRU.get key (lru this)))) as (-> & -> & ->). apply Hget.
Qed.

(** X8: on a miss the read is fulfilled exactly when the fallback store's
    read and the cache store's write are both fulfilled, and then with the
    fallback store's value; it is rejected with the fallback store's error
    when only the fallback store's read is rejected, with the cache
    store's error when only the cache store's write is rejected, and with
    one of the two errors when both are.  In every case what reaches the
    destination is what the fallback store piped. *)
Theorem stream_miss_outcome (key : string) (this : @t C F) :
  nonzero (LRU.peek key (lru this)) = false →
  let read := snd (store_stream key (fallbackStore (env this))) in
  let written := snd (store_ensure key (passThrough (snd read) (fst read))
                        (cacheStore (env this))) in
  snd (stream key this) = snd read ∧
  (∀ a, snd (fst (stream key this)) = Fulfilled a ↔
        fst read = Fulfilled a ∧ ∃ b, written = Fulfilled b) ∧
  (∀ e, fst read = Rejected e → (∀ e', written ≠ Rejected e') →
        snd (fst (stream key this)) = Rejected e) ∧
  (∀ e, written = Rejected e → (∀ e', fst read ≠ Rejected e') →
        snd (fst (stream key this)) = Rejected e) ∧
  (∀ e e', fst read = Rejected e → written = Rejected e' →
           snd (fst (stream key this)) = Rejected e ∨
           snd (fst (stream key this)) = Rejected e').
Proof.
  intros Hmiss. cbv zeta. unfold stream. rewrite get_peek, Hmiss.
  unfold on_fallback, on_cache. cbn [fst snd cacheStore].
  destruct (store_stream key (fallbackStore (env this))) as [f' [rf piped]].
  cbn [fst snd].
  destruct rf as [a|e|];
    destruct (snd (store_ensure key _ (cacheStore (env this)))) as [b|e'|];
    cbn [join fst snd passThrough chunks]; split; try done;
    (split; [intros x; split; [try done; intros [= <-]; eauto
                              | by intros [[= <-] [? ?]] || by intros [? [? ?]]]|]);
    (split; [try done; by intros ? [= <-] ?|]);
    (split; [try done; try (by intros ? [= <-] ?); by intros ? ? Hno; destruct (Hno _ eq_refl)|]);
    try done; intros ? ? [= <-] [= <-]; by left.
Qed.

(** X9: a capability that only one of the two stores has as a function
    (and that [CacheStore] does not have itself) is forwarded to that store
    alone, with the arguments as they are; the other store is not touched
    and the result is that store's result, whether it is a plain value, a
    throw or a promise. *)
Theorem proxy_on_one (name : string) (args : list jsvalue) (this : @t C F) :
  defined name this = false →
  (∀ f, extra (S := C) name = Some f → extra (S := F) name = None →
     ∃ m, proxy name this = Some m ∧
       snd (m args this) = snd (f args (cacheStore (env this))) ∧
       cacheStore (env (fst (m args this))) = fst (f args (cacheStore (env this))) ∧
       fallbackStore (env (fst (m args this))) = fallbackStore (env this) ∧
       trace (env (fst (m args this)))
         = trace (env this) ++ [Issued Cache (Extra name args)]) ∧
  (∀ g, extra (S := C) name = None → extra (S := F) name = Some g →
     ∃ m, proxy name this = Some m ∧
       snd (m args this) = snd (g args (fallbackStore (env this))) ∧
       fallbackStore (env (fst (m args this))) = fst (g args (fallbackStore (env this))) ∧
       cacheStore (env (fst (m args this))) = cacheStore (env this) ∧
       trace (env (fst (m args this)))
         = trace (env this) ++ [Issued Fallback (Extra name args)]).
Proof.
  intros Hdef. split.
  - intros f Hf Hg. unfold proxy. rewrite Hdef, Hf. eexists. split; [done|].
    unfold cache_proxy, with_env, thenSync, on_cache. cbv zeta. cbn [fst snd].
    rewrite Hg.
    destruct (snd (f args (cacheStore (env this)))) as [v|e|[v|e|]];
      cbn [fst snd env cacheStore fallbackStore trace settle]; done.
  - intros g Hf Hg. unfold proxy. rewrite Hdef, Hf, Hg. eexists. split; [done|].
    unfold fallback_proxy, with_env, thenSync, on_fallback. cbv zeta.
    cbn [fst snd env cacheStore fallbackStore trace]. done.
Qed.

(** X10: no proxy is made for a name exactly when [CacheStore] has that
    name itself or neither store has a function of that name; in
    particular the methods and fields of a [CacheStore] with a limit other
    than 0 are never replaced by a proxy, whatever the stores offer. *)
Theorem proxy_none (name : string) (this : @t C F) :
  (proxy name this = None ↔
   defined name this = true ∨
   (extra (S := C) name = None ∧ extra (S := F) name = None)) ∧
  (name ∈ members → cacheLimit this ≠ 0 → proxy name this = None).
Proof.
  assert (proxy name this = None ↔
          defined name this = true ∨
          (extra (S := C) name = None ∧ extra (S := F) name = None)) as Hiff.
  { unfold proxy. destruct (defined name this); [by split; auto|].
    destruct (extra (S := C) name) as [f|].
    - split; [done|]. by intros [?|[? ?]].
    - destruct (extra (S := F) name) as [g|].
      + split; [done|]. by intros [?|[? ?]].
      + split; auto. }
  split; [exact Hiff|]. intros Hin Hlimit. apply Hiff. left.
  unfold defined. rewrite bool_decide_eq_true_2 by done.
  destruct (Z.eqb_spec (cacheLimit this) 0); [done|].
  by rewrite andb_false_r.
Qed.

Lemma move_in_cache_moves source dest (w : @Env C F) :
  moves (fst (move_in_cache source dest w)) = moves w.
Proof.
  unfold move_in_cache, on_cache. cbn [fst snd].
  destruct (snd (store_exists source (cacheStore w))) as [v|e|]; [|done..].
  by destruct (truthy v).
Qed.

(** X11: a rename that is not fulfilled (one of the stores rejects it, or
    never answers) leaves the tracker as it was, and leaves the pair
    [source -> dest] behind in [this.moves]; for the source [__proto__],
    where the assignment does nothing, [this.moves] is as it was. *)
Theorem move_not_fulfilled (source dest : string) (this : @t C F) :
  (∀ both, snd (move source dest this) ≠ Fulfilled both) →
  lru (fst (move source dest this)) = lru this ∧
  (source ≠ "__proto__" →
   moves (env (fst (move source dest this))) = <[source := dest]> (moves (env this))) ∧
  (source = "__proto__" →
   moves (env (fst (move source dest this))) = moves (env this)).
Proof.
  intros Hno. unfold move in *. cbv zeta in *.
  assert (moves (fst (move_in_cache source dest
            (fst (on_fallback (Move source dest) (store_move source dest)
                    (record_move source dest (env this))))))
          = assigned source dest (moves (env this))) as Hmoves
    by (by rewrite move_in_cache_moves).
  unfold assigned in Hmoves.
  destruct (join _ _) as [both|e|]; cbn [fst snd lru env] in *;
    [by destruct (Hno (VArr [fst both; snd both]))|..];
    (split; [done|]); rewrite Hmoves;
    by destruct (String.eqb_spec source "__proto__").
Qed.

Lemma run_max ops : ∀ (this : @t C F),
  LRU.invariant (lru this) → LRU.MAX (lru (run ops this)) = LRU.MAX (lru this).
Proof.
  induction ops as [|op ops IH]; intros this Hinv; [done|]. simpl.
  destruct (step_invariant op this Hinv) as [Hi Hm]. by rewrite IH.
Qed.

Lemma new_max (cache : C) (fallback : F) (L : Z) :
  0 < L → LRU.MAX (lru (CacheStore cache fallback (Some L))) = LRU.Finite L.
Proof. intros HL. simpl. by destruct (Z.leb_spec L 0); [lia|]. Qed.

Lemma ensure_fulfilled_form key sourceStream (this : @t C F) :
  snd (ensure key sourceStream this) = Fulfilled VNull →
  let w := fst (on_cache (Ensure key sourceStream) (store_ensure key sourceStream)
             (fst (on_fallback (Ensure key sourceStream)
                     (store_ensure key sourceStream) (env this)))) in
  lru (fst (ensure key sourceStream this))
    = fst (fst (LRU.set dispose key (Some (observed sourceStream)) (lru this, w))) ∧
  env (fst (ensure key sourceStream this))
    = snd (fst (LRU.set dispose key (Some (observed sourceStream)) (lru this, w))).
Proof.
  unfold ensure. cbv zeta. by destruct (join _ _).
Qed.

(** X12: a write that is fulfilled and whose byte count fits the budget
    registers the key with that byte count, as the most recently used key;
    no key that was not tracked becomes tracked. *)
Theorem ensure_registers (cache : C) (fallback : F) (L : Z) (ops : list operation)
  (key : string) (sourceStream : Readable) :
  let this := run ops (CacheStore cache fallback (Some L)) in
  let after := fst (ensure key sourceStream this) in
  let bytes := Z.of_nat (List.length (concat (chunks sourceStream))) in
  0 < L → bytes ≤ L →
  snd (ensure key sourceStream this) = Fulfilled VNull →
  LRU.peek key (lru after) = Some bytes ∧
  head (map LRU.key (LRU.LRU_LIST (lru after))) = Some key ∧
  (∀ other, LRU.has other (lru after) = true →
            other = key ∨ LRU.has other (lru this) = true).
Proof.
  cbv zeta. set (this := run ops (CacheStore cache fallback (Some L))).
  intros HL Hfits Hful.
  assert (LRU.invariant (lru this)) as Hinv by (apply run_invariant, LRU_invariant).
  assert (LRU.MAX (lru this) = LRU.Finite L) as Hmax.
  { unfold this. rewrite run_max by apply LRU_invariant. by apply new_max. }
  destruct (ensure_fulfilled_form key sourceStream this Hful) as [-> _].
  set (w := fst (on_cache _ _ _)).
  assert (∀ n, Some (observed sourceStream) = Some n → 0 ≤ n) as Hpos.
  { intros n [= <-]. apply observed_nonneg. }
  assert (LRU.exceeds (Some (observed sourceStream)) (LRU.MAX (lru this)) = false) as Hex.
  { rewrite Hmax, observed_bytes. simpl. apply Z.ltb_ge. lia. }
  destruct (set_spec dispose key _ (lru this) w Hinv Hpos) as (_ & _ & _ & Hreg & Hkeys).
  destruct (set_fits_shape dispose key _ (lru this) w Hinv Hpos Hex)
    as (self2 & rest & Hset & Hc2 & Hl2 & _).
  destruct (trim_spec dispose _ rest self2 w Hc2 Hl2) as (_ & _ & _ & kept & _ & _ & Hlist).
  split; [|split].
  - unfold LRU.peek, LRU.get_. rewrite (Hreg Hex). cbn [snd LRU.value].
    by rewrite observed_bytes.
  - rewrite Hset. cbn [fst]. by rewrite Hlist.
  - intros other Hother. apply has_keys in Hother.
    apply Hkeys in Hother as [->|Hin]; [by left|right]. by apply has_keys.
Qed.

(** X13: a write that is fulfilled but larger than the budget is never
    tracked: the key is not tracked afterwards (even if it was before), the
    other keys are tracked as before, and the tracker disposes of the key at
    once, and of nothing else.  When [this.moves[key]] is falsy (the key is
    ordinary and not in [this.moves], or is there with the empty key) the
    bytes just written are unlinked from the cache store; when it is
    truthy (the key is there with a destination that is not empty, or is
    not there but is a name that every object inherits) they are not, and
    only [delete this.moves[key]] is run. *)
Theorem ensure_too_large (cache : C) (fallback : F) (L : Z) (ops : list operation)
  (key : string) (sourceStream : Readable) :
  let this := run ops (CacheStore cache fallback (Some L)) in
  let after := fst (ensure key sourceStream this) in
  0 < L → L < Z.of_nat (List.length (concat (chunks sourceStream))) →
  snd (ensure key sourceStream this) = Fulfilled VNull →
  LRU.has key (lru after) = false ∧
  (∀ other, other ≠ key → LRU.has other (lru after) = LRU.has other (lru this)) ∧
  (moves (env this) !! key = Some "" ∨
   (moves (env this) !! key = None ∧ ordinary key) →
   trace (env after)
     = trace (env this) ++ [Issued Fallback (Ensure key sourceStream);
                            Issued Cache (Ensure key sourceStream);
                            Issued Cache (Unlink key)]) ∧
  ((∃ dest, moves (env this) !! key = Some dest ∧ dest ≠ "") ∨
   (moves (env this) !! key = None ∧ key ∈ inherited) →
   trace (env after)
     = trace (env this) ++ [Issued Fallback (Ensure key sourceStream);
                            Issued Cache (Ensure key sourceStream);
                            Forgotten key]).
Proof.
  cbv zeta. set (this := run ops (CacheStore cache fallback (Some L))).
  intros HL Hlarge Hful.
  assert (LRU.invariant (lru this)) as Hinv by (apply run_invariant, LRU_invariant).
  assert (LRU.MAX (lru this) = LRU.Finite L) as Hmax.
  { unfold this. rewrite run_max by apply LRU_invariant. by apply new_max. }
  destruct (ensure_fulfilled_form key sourceStream this Hful) as [-> ->].
  set (w := fst (on_cache _ _ _)).
  assert (LRU.exceeds (Some (observed sourceStream)) (LRU.MAX (lru this)) = true) as Hex.
  { rewrite Hmax, observed_bytes. simpl. apply Z.ltb_lt. lia. }
  assert (moves w = moves (env this)) as Hmoves by done.
  assert (trace w = trace (env this) ++ [Issued Fallback (Ensure key sourceStream);
                                         Issued Cache (Ensure key sourceStream)]) as Hcalls.
  { unfold w, on_cache, on_fallback. cbn [fst snd trace]. by rewrite <- !app_assoc. }
  assert (∀ v,
    (moves (env this) !! key = Some "" ∨
     (moves (env this) !! key = None ∧ ordinary key) →
     trace (dispose key v w)
       = trace (env this) ++ [Issued Fallback (Ensure key sourceStream);
                              Issued Cache (Ensure key sourceStream);
                              Issued Cache (Unlink key)]) ∧
    ((∃ dest, moves (env this) !! key = Some dest ∧ dest ≠ "") ∨
     (moves (env this) !! key = None ∧ key ∈ inherited) →
     trace (dispose key v w)
       = trace (env this) ++ [Issued Fallback (Ensure key sourceStream);
                              Issued Cache (Ensure key sourceStream);
                              Forgotten key])) as Hdisp.
  { intros v. rewrite <- Hmoves. split; intros Hm.
    - apply not_moved_spec in Hm. unfold dispose, on_cache. rewrite Hm.
      cbn [fst trace]. by rewrite Hcalls, <- app_assoc.
    - apply moved_spec in Hm. unfold dispose. rewrite Hm.
      cbn [trace]. by rewrite Hcalls, <- app_assoc. }
  unfold LRU.set, LRU.lengthCalculator. cbv zeta. cbn [fst snd].
  destruct (LRU.node_of key (LRU.LRU_LIST (lru this))) as [item|] eqn:Hf.
  - rewrite Hex. pose proof (node_of_Some _ _ _ Hf) as [Hk _].
    cbn [fst snd LRU.del_]. rewrite Hk. split; [|split; [|apply Hdisp]].
    + pose proof (del_has dispose key (lru this) w Hinv) as Hgone.
      unfold LRU.del in Hgone. cbn [fst] in Hgone. rewrite Hf in Hgone.
      cbn [LRU.del_ fst] in Hgone. by rewrite Hk in Hgone.
    + intros other Hne. unfold LRU.has. cbn [LRU.LRU_LIST].
      by rewrite node_of_removeNode_ne.
  - change (LRU.length {| LRU.key := key; LRU.value := Some (observed sourceStream);
                          LRU.length := Some (observed sourceStream) |})
      with (Some (observed sourceStream)).
    rewrite Hex. cbn [fst snd]. split; [|split; [done|apply Hdisp]].
    unfold LRU.has. by rewrite Hf.
Qed.

Lemma move_fulfilled_form source dest (this : @t C F) both :
  snd (move source dest this) = Fulfilled both →
  let w := fst (move_in_cache source dest
             (fst (on_fallback (Move source dest) (store_move source dest)
                     (record_move source dest (env this))))) in
  let d := LRU.del dispose source (fst (LRU.get source (lru this)), w) in
  lru (fst (move source dest this))
    = fst (fst (LRU.set dispose dest (snd (LRU.get source (lru this))) d)) ∧
  env (fst (move source dest this))
    = snd (fst (LRU.set dispose dest (snd (LRU.get source (lru this))) d)) ∧
  moves w = assigned source dest (moves (env this)) ∧
  trace w = trace (env this) ++
            rename_events source dest
              (reports (snd (store_exists source (cacheStore (env this))))).
Proof.
  unfold move. cbv zeta. destruct (join _ _); [|done..]. intros _.
  cbn [fst snd lru env]. do 2 (split; [done|]). split.
  - by rewrite move_in_cache_moves.
  - rewrite (proj1 (move_in_cache_trace _ _ _)).
    unfold on_fallback, record_move, rename_events. cbn [fst snd trace cacheStore].
    by rewrite <- !app_assoc.
Qed.

Lemma dispose_own key k v (w : @Env C F) :
  moves w !! key = None → moves (dispose k v w) !! key = None.
Proof.
  intros Hn. unfold dispose, on_cache. destruct (moved k w); cbn [fst moves]; [|done].
  destruct (decide (k = key)) as [->|]; [apply lookup_delete_eq|].
  by rewrite lookup_delete_ne.
Qed.

Lemma step_own_proto op (this : @t C F) :
  moves (env this) !! "__proto__" = None →
  moves (env (step op this)) !! "__proto__" = None.
Proof.
  intros Hn.
  pose (R := λ a b : @Env C F,
          moves a !! "__proto__" = None → moves b !! "__proto__" = None).
  assert (∀ w, R w w) as Hrefl by (intros w; unfold R; auto).
  assert (∀ a b c, R a b → R b c → R a c) as Htrans by (unfold R; auto).
  assert (∀ k v w, R w (dispose k v w)) as Hdisp
    by (intros k v w; unfold R; apply dispose_own).
  destruct op as [key src|key|source dest|key]; cbn [step].
  - unfold ensure. cbv zeta. destruct (join _ _); cbn [fst env]; [|done..].
    by apply (set_respects dispose R Hrefl Htrans Hdisp key _ (lru this, _)).
  - unfold stream. cbv zeta. destruct (nonzero _); [done|].
    by destruct (join _ _).
  - assert (moves (fst (move_in_cache source dest
              (fst (on_fallback (Move source dest) (store_move source dest)
                      (record_move source dest (env this)))))) !! "__proto__"
            = None) as Hmoves.
    { rewrite move_in_cache_moves. cbn [on_fallback record_move fst moves].
      unfold assigned. destruct (String.eqb_spec source "__proto__"); [done|].
      by rewrite lookup_insert_ne. }
    unfold move. cbv zeta. destruct (join _ _); cbn [fst env]; [|done..].
    apply (set_respects dispose R Hrefl Htrans Hdisp dest _ _).
    by apply (del_respects dispose R Hrefl Hdisp source (_, _)).
  - done.
Qed.

(** [this.moves] never has a property of its own under [__proto__]. *)
Lemma run_own_proto ops : ∀ (this : @t C F),
  moves (env this) !! "__proto__" = None →
  moves (env (run ops this)) !! "__proto__" = None.
Proof.
  induction ops as [|op ops IH]; intros this Hn; [done|]. simpl.
  by apply IH, step_own_proto.
Qed.

(** X14: when a rename of a key that the tracker holds, to a key that is
    not empty, is fulfilled, the pair recorded for it is gone from
    [this.moves] again, and after the stores are called the tracker forgets
    the source key without ever asking the cache store to unlink it: the
    bytes that were renamed in the cache store are not deleted. *)
Theorem move_keeps_renamed (cache : C) (fallback : F) (limit : option Z)
  (ops : list operation) (source dest : string) (both : jsvalue) :
  let this := run ops (CacheStore cache fallback limit) in
  let after := fst (move source dest this) in
  LRU.has source (lru this) = true → dest ≠ "" →
  snd (move source dest this) = Fulfilled both →
  moves (env after) !! source = None ∧
  ∃ evs, trace (env after)
           = trace (env this) ++
             rename_events source dest
               (reports (snd (store_exists source (cacheStore (env this))))) ++
             Forgotten source :: evs ∧
         Forall (λ ev, ev ≠ Issued Cache (Unlink source)) evs.
Proof.
  cbv zeta. set (this := run ops (CacheStore cache fallback limit)).
  intros Hhas Hdest Hful.
  assert (LRU.invariant (lru this)) as Hinv by (apply run_invariant, LRU_invariant).
  destruct (move_fulfilled_form source dest this both Hful) as (_ & -> & Hmoves & Htrace).
  set (w := fst (move_in_cache _ _ _)) in *.
  pose proof (get_invariant source _ Hinv) as Hg.
  assert (∃ item, LRU.node_of source (LRU.LRU_LIST (fst (LRU.get source (lru this))))
                  = Some item ∧ LRU.key item = source) as (item & Hitem & Hk).
  { unfold LRU.has in Hhas. rewrite (proj1 (get_keeps source source (lru this))).
    destruct (LRU.node_of source (LRU.LRU_LIST (lru this))) as [item|] eqn:Hf; [|done].
    exists item. split; [done|]. by apply node_of_Some in Hf as [? _]. }
  pose proof (del_invariant dispose source _ w Hg) as Hd.
  pose proof (del_has dispose source _ w Hg) as Hgone.
  pose proof (del_fields dispose source (fst (LRU.get source (lru this))) w) as [Hdm _].
  assert (snd (LRU.del dispose source (fst (LRU.get source (lru this)), w))
          = {| moves := delete source (moves w); cacheStore := cacheStore w;
               fallbackStore := fallbackStore w;
               trace := trace w ++ [Forgotten source] |}) as Hw1.
  { assert (moved source w = true) as Hmoved.
    { unfold moved. rewrite Hmoves. unfold assigned.
      destruct (String.eqb_spec source "__proto__") as [->|_].
      - unfold this. by rewrite run_own_proto.
      - rewrite lookup_insert_eq. by destruct (String.eqb_spec dest ""). }
    unfold LRU.del. cbn [fst]. rewrite Hitem. cbn [LRU.del_ snd]. rewrite Hk.
    unfold dispose. by rewrite Hmoved. }
  rewrite del_pair. cbn [fst snd]. rewrite Hw1.
  set (w1 := {| moves := delete source (moves w); cacheStore := cacheStore w;
                fallbackStore := fallbackStore w;
                trace := trace w ++ [Forgotten source] |}).
  pose (R := λ a b : @Env C F,
          (moves a !! source = None → moves b !! source = None) ∧
          ∃ evs, trace b = trace a ++ evs ∧
                 Forall (λ ev, ev ≠ Issued Cache (Unlink source)) evs).
  assert (R w1 (snd (fst (LRU.set dispose dest (snd (LRU.get source (lru this)))
                  (fst (LRU.del dispose source (fst (LRU.get source (lru this)), w)),
                   w1))))) as [Hm (evs & Hevs & Hall)].
  { apply (set_fits_respects dispose R (λ k, k ≠ source)).
    - intros a. split; [done|]. exists []. by rewrite app_nil_r.
    - intros a b c [Hab (e1 & Ht1 & Hd1)] [Hbc (e2 & Ht2 & Hd2)]. split; [auto|].
      exists (e1 ++ e2). split; [by rewrite Ht2, Ht1, app_assoc|by apply Forall_app].
    - intros k v a Hk'. unfold dispose, on_cache. destruct (moved k a); cbn [fst].
      + split; [intros Ha; cbn [moves]; by rewrite lookup_delete_ne|].
        exists [Forgotten k]. split; [done|]. by repeat constructor.
      + split; [done|]. exists [Issued Cache (Unlink k)]. split; [done|].
        constructor; [congruence|constructor].
    - done.
    - intros n Hn. by apply (get_value_ok source (lru this)).
    - rewrite Hdm, (proj1 (get_fields source (lru this))).
      by apply get_value_fits.
    - intros k' Hin _ ->. apply has_false_keys in Hgone. by apply Hgone. }
  split.
  - apply Hm. unfold w1. cbn [moves]. apply lookup_delete_eq.
  - exists evs. split; [|done]. rewrite Hevs. unfold w1. cbn [trace].
    by rewrite Htrace, <- !app_assoc.
Qed.

Lemma step_nan op (this : @t C F) :
  LRU.LENGTH (lru this) = None → LRU.LENGTH (lru (step op this)) = None.
Proof.
  intros Hn. destruct op as [key src|key|source dest|key]; simpl.
  - destruct (ensure_tracker key src this) as [->|[w ->]]; [done|].
    apply set_nan. by left.
  - destruct (stream_tracker key this) as [-> | ->];
      by rewrite ?(proj2 (get_fields key _)).
  - destruct (move_tracker source dest this) as [[-> _]|(w & both & _ & ->)]; [done|].
    rewrite del_pair. apply set_nan. left. apply del_nan.
    cbn [fst]. by rewrite (proj2 (get_fields source _)).
  - done.
Qed.

(** X15: once a rename of a key that the tracker does not hold is
    fulfilled, the tracker's total is not a number any more; it stays so
    through every later operation, and from then on a write that fits the
    budget makes the tracker dispose of nothing: the stores are called for
    the write and no key is unlinked. *)
Theorem move_untracked_ends_eviction (cache : C) (fallback : F) (limit : option Z)
  (before later : list operation) (source dest : string) (both : jsvalue) :
  let this := run before (CacheStore cache fallback limit) in
  let then_ := run later (fst (move source dest this)) in
  LRU.has source (lru this) = false →
  snd (move source dest this) = Fulfilled both →
  LRU.LENGTH (lru then_) = None ∧
  ∀ key sourceStream,
    LRU.exceeds (Some (observed sourceStream)) (LRU.MAX (lru then_)) = false →
    trace (env (fst (ensure key sourceStream then_)))
      = trace (env then_) ++ [Issued Fallback (Ensure key sourceStream);
                              Issued Cache (Ensure key sourceStream)].
Proof.
  cbv zeta. set (this := run before (CacheStore cache fallback limit)).
  intros Hhas Hful.
  assert (LRU.LENGTH (lru (fst (move source dest this))) = None) as Hnan.
  { destruct (move_fulfilled_form source dest this both Hful) as (-> & _).
    rewrite del_pair. apply set_nan. right. by rewrite (get_absent _ _ Hhas). }
  assert (LRU.LENGTH (lru (run later (fst (move source dest this)))) = None) as Hlater.
  { generalize dependent (fst (move source dest this)). clear.
    induction later as [|op later IH]; intros st Hn; [done|]. simpl.
    by apply IH, step_nan. }
  split; [done|]. intros key src Hex.
  set (then_ := run later (fst (move source dest this))) in *.
  assert (LRU.invariant (lru then_)) as Hinv.
  { unfold then_. apply run_invariant.
    change (fst (move source dest this)) with (step (DoMove source dest) this).
    apply step_invariant. unfold this. apply run_invariant, LRU_invariant. }
  assert (trace (fst (on_cache (Ensure key src) (store_ensure key src)
                   (fst (on_fallback (Ensure key src) (store_ensure key src) (env then_)))))
          = trace (env then_) ++ [Issued Fallback (Ensure key src);
                                  Issued Cache (Ensure key src)]) as Hcalls.
  { unfold on_cache, on_fallback. cbn [fst snd trace]. by rewrite <- app_assoc. }
  unfold ensure. cbv zeta. destruct (join _ _); cbn [fst env]; [|done..].
  destruct (set_fits_shape dispose key (Some (observed src)) (lru then_)
              (fst (on_cache (Ensure key src) (store_ensure key src)
                 (fst (on_fallback (Ensure key src) (store_ensure key src) (env then_)))))
              Hinv) as (self2 & rest & -> & _ & _ & Hn2 & _); [|done|].
  { intros n [= <-]. apply observed_nonneg. }
  cbn [fst]. rewrite trim_nan by (apply Hn2; by left). done.
Qed.

Lemma dispose_fallback k v (w : @Env C F) :
  fallbackStore (dispose k v w) = fallbackStore w.
Proof. unfold dispose, on_cache. by destruct (moved k w). Qed.

(** X16: the fallback store is changed by the calls made on it and by
    nothing else: a write, a read, a rename and a delete leave it as their
    one call on it left it (a read that hits does not touch it), whatever
    the tracker disposes of meanwhile. *)
Theorem fallback_only_by_calls (this : @t C F) :
  (∀ key sourceStream,
     fallbackStore (env (fst (ensure key sourceStream this)))
     = fst (store_ensure key sourceStream (fallbackStore (env this)))) ∧
  (∀ key,
     fallbackStore (env (fst (fst (stream key this))))
     = if nonzero (LRU.peek key (lru this)) then fallbackStore (env this)
       else fst (store_stream key (fallbackStore (env this)))) ∧
  (∀ source dest,
     fallbackStore (env (fst (move source dest this)))
     = fst (store_move source dest (fallbackStore (env this)))) ∧
  (∀ key,
     fallbackStore (env (fst (unlink key this)))
     = fst (store_unlink key (fallbackStore (env this)))).
Proof.
  pose (R := λ a b : @Env C F, fallbackStore b = fallbackStore a).
  assert (∀ w, R w w) as Hrefl by done.
  assert (∀ a b c, R a b → R b c → R a c) as Htrans.
  { unfold R. intros a b c Hab Hbc. by rewrite Hbc. }
  assert (∀ k v w, R w (dispose k v w)) as Hdisp.
  { intros k v w. apply dispose_fallback. }
  split; [|split; [|split]].
  - intros key src. unfold ensure. cbv zeta.
    destruct (join _ _); cbn [fst env]; [|done..].
    by rewrite (set_respects dispose R Hrefl Htrans Hdisp key _ (lru this, _)).
  - intros key. unfold stream. cbv zeta. rewrite get_peek.
    destruct (nonzero (LRU.peek key (lru this))); [done|].
    by destruct (join _ _).
  - intros source dest. unfold move. cbv zeta.
    destruct (join _ _); cbn [fst env];
      [|by rewrite (proj2 (move_in_cache_trace _ _ _))..].
    rewrite (set_respects dispose R Hrefl Htrans Hdisp dest _ _).
    rewrite (del_respects dispose R Hrefl Hdisp source (_, _)). cbn [snd].
    by rewrite (proj2 (move_in_cache_trace _ _ _)).
  - done.
Qed.

End CacheStoreMore.

(** ** A write and a read over two MemoryStores *)

Section MemoryTiers.

Import CacheStore.

#[local] Existing Instance memoryStore.

Lemma dispose_keeps_cached key k v (w : @Env MemoryStore.t MemoryStore.t) :
  k ≠ key →
  MemoryStore.data (cacheStore (dispose k v w)) !! key
    = MemoryStore.data (cacheStore w) !! key.
Proof.
  intros Hne. unfold dispose, on_cache. destruct (moved k w); [done|].
  cbn [fst cacheStore store_unlink memoryStore MemoryStore.unlink MemoryStore.data].
  by apply lookup_delete_ne.
Qed.

(** X17: over two MemoryStores, in every state reached from a new
    [CacheStore] with a budget greater than 0 by operations on keys that
    are ordinary, and for a key that is ordinary, a write of at least one
    byte that ends and fits the budget is fulfilled, the fallback store
    holds the bytes, and a read of the key that follows is a hit: it is
    served by the cache store alone and what it pipes, chunk after chunk,
    is exactly the bytes written. *)
Theorem write_then_read (L : Z) (ops : list operation) (key : string)
  (sourceStream : Readable) :
  let this := run ops (CacheStore MemoryStore.MemoryStore MemoryStore.MemoryStore
                         (Some L)) in
  let after := fst (ensure key sourceStream this) in
  let bytes := concat (chunks sourceStream) in
  Forall (λ op, Forall ordinary (keys_of op)) ops → ordinary key →
  0 < L → finish sourceStream = Ended → bytes ≠ [] →
  Z.of_nat (List.length bytes) ≤ L →
  snd (ensure key sourceStream this) = Fulfilled VNull ∧
  MemoryStore.data (fallbackStore (env after)) !! key = Some (MemoryStore.Buf bytes) ∧
  snd (fst (stream key after)) = Fulfilled VUndefined ∧
  concat (snd (stream key after)) = bytes ∧
  trace (env (fst (fst (stream key after))))
    = trace (env after) ++ [Issued Cache (Stream key)].
Proof.
  cbv zeta.
  set (this := run ops (CacheStore MemoryStore.MemoryStore MemoryStore.MemoryStore
                          (Some L))).
  intros _ _ HL Hend Hbytes Hfits.
  assert (LRU.invariant (lru this)) as Hinv by (apply run_invariant, LRU_invariant).
  assert (LRU.MAX (lru this) = LRU.Finite L) as Hmax.
  { unfold this. rewrite run_max by apply LRU_invariant. by apply new_max. }
  assert (MemoryStore.getContents (chunks sourceStream)
          = MemoryStore.Buf (concat (chunks sourceStream))) as Hc.
  { unfold MemoryStore.getContents.
    destruct (concat (chunks sourceStream)); [done|reflexivity]. }
  assert (∀ st, store_ensure key sourceStream st
                = ({| MemoryStore.data :=
                        <[key := MemoryStore.Buf (concat (chunks sourceStream))]>
                          (MemoryStore.data st) |}, Fulfilled VUndefined)) as Hwrite.
  { intros st. cbn [store_ensure memoryStore]. unfold MemoryStore.ensure.
    by rewrite Hend, Hc. }
  assert (snd (ensure key sourceStream this) = Fulfilled VNull) as Hful.
  { unfold ensure, on_fallback, on_cache. cbv zeta. cbn [fst snd cacheStore].
    by rewrite !Hwrite. }
  split; [exact Hful|].
  destruct (ensure_fulfilled_form key sourceStream this Hful) as [Hlru Henv].
  set (w := fst (on_cache _ _ _)) in *.
  assert (MemoryStore.data (cacheStore w) !! key
          = Some (MemoryStore.Buf (concat (chunks sourceStream))) ∧
          MemoryStore.data (fallbackStore w) !! key
          = Some (MemoryStore.Buf (concat (chunks sourceStream)))) as [Hcw Hfw].
  { unfold w, on_cache, on_fallback. cbn [fst snd cacheStore fallbackStore].
    rewrite !Hwrite. cbn [fst MemoryStore.data]. by rewrite !lookup_insert_eq. }
  assert (∀ n, Some (observed sourceStream) = Some n → 0 ≤ n) as Hpos.
  { intros n [= <-]. apply observed_nonneg. }
  assert (LRU.exceeds (Some (observed sourceStream)) (LRU.MAX (lru this)) = false) as Hex.
  { rewrite Hmax, observed_bytes. simpl. apply Z.ltb_ge. lia. }
  pose (R := λ a b : @Env MemoryStore.t MemoryStore.t,
          MemoryStore.data (cacheStore b) !! key = MemoryStore.data (cacheStore a) !! key ∧
          fallbackStore b = fallbackStore a).
  assert (R w (snd (fst (LRU.set dispose key (Some (observed sourceStream))
                           (lru this, w))))) as [Hkept Hfb].
  { apply (set_fits_respects dispose R (λ k, k ≠ key)); try done.
    - intros a b c [Hab Hab'] [Hbc Hbc']. split; [by rewrite Hbc|by rewrite Hbc'].
    - intros k v a Hk. split; [by apply dispose_keeps_cached|].
      unfold dispose, on_cache. by destruct (moved k a). }
  rewrite <- Henv in Hkept, Hfb.
  split; [by rewrite Hfb|].
  assert (LRU.peek key (lru (fst (ensure key sourceStream this)))
          = Some (observed sourceStream)) as Hpeek.
  { rewrite Hlru.
    destruct (set_spec dispose key _ (lru this) w Hinv Hpos) as (_ & _ & _ & Hreg & _).
    unfold LRU.peek, LRU.get_. by rewrite (Hreg Hex). }
  assert (nonzero (Some (observed sourceStream)) = true) as Hnz.
  { rewrite observed_bytes. simpl. apply negb_true_iff, Z.eqb_neq.
    destruct (concat (chunks sourceStream)); [done|]. simpl. lia. }
  unfold stream. cbv zeta. rewrite get_peek, Hpeek, Hnz.
  unfold on_cache. cbn [fst snd env trace store_stream memoryStore].
  unfold MemoryStore.stream. rewrite Hkept, Hcw. cbn [fst snd settle].
  split; [done|]. split; [|done]. apply chunked_spec.
Qed.

(** X18: over two MemoryStores, a write whose source stream fails is
    rejected with the stream's error, and nothing has changed: neither
    store holds anything new and the tracker and [this.moves] are as they
    were. *)
Theorem ensure_of_failed_stream (key e : string) (sourceStream : Readable)
  (this : @t MemoryStore.t MemoryStore.t) :
  finish sourceStream = Errored e →
  snd (ensure key sourceStream this) = Rejected e ∧
  lru (fst (ensure key sourceStream this)) = lru this ∧
  cacheStore (env (fst (ensure key sourceStream this))) = cacheStore (env this) ∧
  fallbackStore (env (fst (ensure key sourceStream this))) = fallbackStore (env this) ∧
  moves (env (fst (ensure key sourceStream this))) = moves (env this).
Proof.
  intros Hfail.
  assert (∀ st, store_ensure key sourceStream st = (st, Rejected e)) as Hwrite.
  { intros st. cbn [store_ensure memoryStore]. unfold MemoryStore.ensure.
    by rewrite Hfail. }
  unfold ensure, on_fallback, on_cache. cbv zeta. cbn [fst snd cacheStore].
  rewrite !Hwrite. done.
Qed.

(** *** The properties above on the stores of the test suite *)

Lemma ensure_outcome_witness :
  let broken := {| chunks := [[Byte.x68]]; finish := Errored "aargh" |} in
  lru (fst (ensure "k" broken cachedStore)) = lru cachedStore ∧
  trace (env (fst (ensure "k" broken cachedStore)))
    = [Issued Fallback (Ensure "k" broken); Issued Cache (Ensure "k" broken)].
Proof.
  intros broken.
  destruct (ensure_outcome "k" broken cachedStore) as [_ Hfail].
  destruct Hfail as (Hlru & _ & Htrace); [intros v; discriminate|].
  split; [exact Hlru|exact Htrace].
Defined.

Lemma stream_miss_outcome_witness :
  snd (fst (stream "k" cachedStore)) = Rejected (MemoryStore.missing "k") ∧
  snd (stream "k" cachedStore) = [].
Proof.
  destruct (stream_miss_outcome "k" cachedStore eq_refl) as (Hpiped & _ & Hrej & _).
  split; [apply Hrej; [reflexivity|intros e'; discriminate]|exact Hpiped].
Defined.

Lemma proxy_on_one_witness :
  ∃ m, proxy (SC := withMethod "onlyCache" (Return (VStr "cache")) memoryStore)
             (SF := memoryStore) "onlyCache" cachedStore = Some m ∧
       snd (m [VNum 1] cachedStore) = Return (VStr "cache") ∧
       trace (env (fst (m [VNum 1] cachedStore)))
         = [Issued Cache (Extra "onlyCache" [VNum 1])].
Proof.
  destruct (proxy_on_one
              (SC := withMethod "onlyCache" (Return (VStr "cache")) memoryStore)
              (SF := memoryStore) "onlyCache" [VNum 1] cachedStore eq_refl)
    as [Hcache _].
  destruct (Hcache (fun _ this => (this, Return (VStr "cache"))) eq_refl eq_refl)
    as (m & Hm & Hret & _ & _ & Htrace).
  exists m. split; [exact Hm|]. split; [exact Hret|exact Htrace].
Defined.

Lemma proxy_none_witness :
  proxy (SC := withMethod "stream" (Return (VStr "mine")) memoryStore)
        (SF := memoryStore) "stream" cachedStore = None ∧
  proxy (SC := withMethod "toString" (Return (VStr "mine")) memoryStore)
        (SF := withMethod "toString" (Return (VStr "too")) memoryStore)
        "toString" cachedStore = None.
Proof.
  split.
  - apply (proj2 (proxy_none
                    (SC := withMethod "stream" (Return (VStr "mine")) memoryStore)
                    (SF := memoryStore) "stream" cachedStore)); [by_key|discriminate].
  - apply (proj2 (proxy_none
                    (SC := withMethod "toString" (Return (VStr "mine")) memoryStore)
                    (SF := withMethod "toString" (Return (VStr "too")) memoryStore)
                    "toString" cachedStore)); [by_key|discriminate].
Defined.

Lemma move_not_fulfilled_witness :
  lru (fst (move "nope" "x" cachedStore)) = lru cachedStore ∧
  moves (env (fst (move "nope" "x" cachedStore))) = <["nope" := "x"]> ∅ ∧
  moves (env (fst (move "__proto__" "x" cachedStore))) = ∅.
Proof.
  destruct (move_not_fulfilled "nope" "x" cachedStore) as (Hlru & Hleft & _).
  { intros both. vm_compute. discriminate. }
  destruct (move_not_fulfilled "__proto__" "x" cachedStore) as (_ & _ & Hsame).
  { intros both. vm_compute. discriminate. }
  split; [exact Hlru|]. split; [apply Hleft; discriminate|apply Hsame; reflexivity].
Defined.

Lemma ensure_registers_witness :
  let this := run [DoEnsure "A" (blob 40)] cachedStore in
  let after := fst (ensure "B" (blob 40) this) in
  LRU.peek "B" (lru after) = Some 40 ∧
  head (map LRU.key (LRU.LRU_LIST (lru after))) = Some "B" ∧
  (∀ other, LRU.has other (lru after) = true →
            other = "B" ∨ LRU.has other (lru this) = true).
Proof.
  apply (ensure_registers MemoryStore.MemoryStore MemoryStore.MemoryStore 100
           [DoEnsure "A" (blob 40)] "B" (blob 40)).
  - lia.
  - vm_compute. discriminate.
  - vm_compute. reflexivity.
Defined.

Lemma ensure_too_large_witness :
  let after := fst (ensure "big" (blob 150) cachedStore) in
  LRU.has "big" (lru after) = false ∧
  trace (env after)
    = [Issued Fallback (Ensure "big" (blob 150));
       Issued Cache (Ensure "big" (blob 150));
       Issued Cache (Unlink "big")] ∧
  trace (env (fst (ensure "toString" (blob 150) cachedStore)))
    = [Issued Fallback (Ensure "toString" (blob 150));
       Issued Cache (Ensure "toString" (blob 150));
       Forgotten "toString"].
Proof.
  intros after.
  destruct (ensure_too_large MemoryStore.MemoryStore MemoryStore.MemoryStore 100
              [] "big" (blob 150)) as (Hgone & _ & Hunlinked & _).
  { lia. }
  { vm_compute. reflexivity. }
  { vm_compute. reflexivity. }
  destruct (ensure_too_large MemoryStore.MemoryStore MemoryStore.MemoryStore 100
              [] "toString" (blob 150)) as (_ & _ & _ & Hkept).
  { lia. }
  { vm_compute. reflexivity. }
  { vm_compute. reflexivity. }
  split; [exact Hgone|]. split.
  - apply Hunlinked. right. split; [reflexivity|by_key].
  - apply Hkept. right. split; [reflexivity|by_key].
Defined.

Lemma move_keeps_renamed_witness :
  let this := run [DoEnsure "tmp" (blob 40)] cachedStore in
  moves (env (fst (move "tmp" "A" this))) !! "tmp" = None.
Proof.
  apply (move_keeps_renamed MemoryStore.MemoryStore MemoryStore.MemoryStore (Some 100)
           [DoEnsure "tmp" (blob 40)] "tmp" "A" (VArr [VUndefined; VUndefined])).
  - vm_compute. reflexivity.
  - discriminate.
  - vm_compute. reflexivity.
Defined.

Lemma move_untracked_ends_eviction_witness :
  let this := run [DoEnsure "tmp" (blob 150)] cachedStore in
  let then_ := run [DoEnsure "A" (blob 40); DoEnsure "B" (blob 40)]
                 (fst (move "tmp" "big" this)) in
  LRU.LENGTH (lru then_) = None ∧
  trace (env (fst (ensure "C" (blob 40) then_)))
    = trace (env then_) ++ [Issued Fallback (Ensure "C" (blob 40));
                            Issued Cache (Ensure "C" (blob 40))].
Proof.
  intros this then_.
  destruct (move_untracked_ends_eviction
              MemoryStore.MemoryStore MemoryStore.MemoryStore (Some 100)
              [DoEnsure "tmp" (blob 150)]
              [DoEnsure "A" (blob 40); DoEnsure "B" (blob 40)]
              "tmp" "big" (VArr [VUndefined; VBool false]))
    as [Hnan Hquiet].
  - vm_compute. reflexivity.
  - vm_compute. reflexivity.
  - split; [exact Hnan|]. apply Hquiet. vm_compute. reflexivity.
Defined.

Lemma write_then_read_witness :
  let this := run [DoEnsure "A" (blob 40); DoEnsure "B" (blob 40)] cachedStore in
  let after := fst (ensure "C" (blob 40) this) in
  concat (snd (stream "C" after)) = repeat Byte.x61 40 ∧
  trace (env (fst (fst (stream "C" after))))
    = trace (env after) ++ [Issued Cache (Stream "C")].
Proof.
  intros this after.
  destruct (write_then_read 100 [DoEnsure "A" (blob 40); DoEnsure "B" (blob 40)]
              "C" (blob 40)) as (_ & _ & _ & Hpiped & Htrace).
  - by_key.
  - by_key.
  - lia.
  - reflexivity.
  - vm_compute. discriminate.
  - vm_compute. discriminate.
  - split; [exact Hpiped|exact Htrace].
Defined.

Lemma ensure_of_failed_stream_witness :
  let broken := {| chunks := [[Byte.x68]]; finish := Errored "aargh" |} in
  snd (ensure "k" broken cachedStore) = Rejected "aargh" ∧
  cacheStore (env (fst (ensure "k" broken cachedStore))) = MemoryStore.MemoryStore ∧
  fallbackStore (env (fst (ensure "k" broken cachedStore))) = MemoryStore.MemoryStore.
Proof.
  intros broken.
  destruct (ensure_of_failed_stream "k" "aargh" broken cachedStore eq_refl)
    as (Hrej & _ & Hcache & Hfallback & _).
  split; [exact Hrej|]. split; [exact Hcache|exact Hfallback].
Defined.

End MemoryTiers.
